(** * StoryEngine: a shallow embedding of the engine core

    The repository carries two implementations of the same engine:
    [story_engine/core.py] (UI-agnostic, module [Core] below) and
    [story_engine.py] (coupled to a terminal UI, module [Tui] below).

    Python dictionaries are finite maps ([gmap]) wherever only their
    contents are observed, and insertion-ordered association lists where
    the iteration order decides what the program does (the effect
    registry, whose expiry callbacks run in iteration order, and objects
    read back from a file).  Mutable [Effect] objects live in an explicit
    heap, since the registry and the snapshot taken by the ageing loop
    refer to them by reference.

    User callbacks are opaque to the engine: they are drawn from an
    arbitrary type [Fn] and interpreted by an arbitrary function
    [call : Fn -> Story -> Story], so that every theorem holds for any
    callback that returns normally, whatever it does to the story. *)

From Stdlib Require Import ZArith String List Bool Lia.
From stdpp Require Import base option gmap strings list fin_maps.

Local Open Scope string_scope.
Local Open Scope list_scope.
Local Open Scope Z_scope.

(** ** Exceptions and results *)

(** The faults the modelled code can raise.  [IllTyped] is not a Python
    exception: it marks the places where Python would silently store a
    value that the annotated types of the source exclude (for instance a
    string as [hp]), which the typed state below cannot represent. *)
Inductive exn :=
  | KeyError | TypeError | AttributeError | IndexError
  | FileNotFoundError | JSONDecodeError | OSError | IllTyped.

Inductive result (A : Type) :=
  | Ok (a : A)
  | Raise (e : exn).
Arguments Ok {A} a.
Arguments Raise {A} e.

Definition result_bind {A B} (r : result A) (k : A -> result B) : result B :=
  match r with
  | Ok a => k a
  | Raise e => Raise e
  end.

(** ** Python values *)

Set Warnings "-register-all".

Section Values.
Context {Fn : Type}.

(** What a node database (a [Dict[str, Any]]) is made of. *)
Inductive value :=
  | VNone
  | VBool (b : bool)
  | VInt (z : Z)
  | VStr (s : string)
  | VList (l : list value)
  | VDict (d : gmap string value)
  | VFn (f : Fn).

(** [bool(v)], as used by [if not node]. *)
Definition truthy (v : value) : bool :=
  match v with
  | VNone => false
  | VBool b => b
  | VInt z => negb (Z.eqb z 0)
  | VStr s => negb (String.eqb s "")
  | VList l => match l with [] => false | _ => true end
  | VDict d => negb (bool_decide (dom d = ∅))
  | VFn _ => true
  end.

(** [callable(v)] *)
Definition callable (v : value) : option Fn :=
  match v with VFn f => Some f | _ => None end.

(** [k in s] on two strings is the substring test. *)
Fixpoint is_substring (k s : string) : bool :=
  String.prefix k s ||
  match s with
  | EmptyString => false
  | String _ s' => is_substring k s'
  end.

Definition is_str (k : string) (v : value) : bool :=
  match v with VStr s => String.eqb k s | _ => false end.

(** [k in v] for a string [k]: key membership on a dict, substring test
    on a string, element membership on a list, [TypeError] on anything
    that is not a container. *)
Definition py_in (k : string) (v : value) : result bool :=
  match v with
  | VDict d => Ok (bool_decide (is_Some (d !! k)))
  | VStr s => Ok (is_substring k s)
  | VList l => Ok (existsb (is_str k) l)
  | _ => Raise TypeError
  end.

(** [v[k]] for a string [k]: only a dict can be indexed by a string. *)
Definition py_getitem (k : string) (v : value) : result value :=
  match v with
  | VDict d => match d !! k with Some x => Ok x | None => Raise KeyError end
  | _ => Raise TypeError
  end.

(** [v.get(k, dflt)]: only dicts have a [get] method. *)
Definition py_get (k : string) (dflt : value) (v : value) : result value :=
  match v with
  | VDict d => Ok (default dflt (d !! k))
  | _ => Raise AttributeError
  end.

(** The loop of [_get_node]: [for step in path: node = node[step]]. *)
Fixpoint walk (node : value) (path : list string) : result value :=
  match path with
  | [] => Ok node
  | p :: rest =>
      match py_getitem p node with
      | Ok n => walk n rest
      | Raise e => Raise e
      end
  end.

Definition as_str (v : value) : option string :=
  match v with VStr s => Some s | _ => None end.

(** [next_path.copy()] assigned to a [List[str]]: a list of strings is
    copied; a dict also has [copy] but is no path; scalars and callables
    have no [copy] attribute. *)
Definition copy_path (v : value) : result (list string) :=
  match v with
  | VList l =>
      match mapM as_str l with
      | Some p => Ok p
      | None => Raise IllTyped
      end
  | VDict _ => Raise IllTyped
  | _ => Raise AttributeError
  end.

End Values.
Arguments value : clear implicits.

(** ** Files

    [json.load] hands back a Python object: dictionaries keep the order
    of the document, so an object is an association list here.  A file
    either parses or not. *)
Inductive json :=
  | JNull
  | JBool (b : bool)
  | JInt (z : Z)
  | JStr (s : string)
  | JList (l : list json)
  | JDict (d : list (string * json)).

Inductive content :=
  | Malformed
  | Parsed (j : json).

(** [d.get(k)] on an object read from a file. *)
Fixpoint jlookup (k : string) (d : list (string * json)) : option json :=
  match d with
  | [] => None
  | (k', v) :: rest => if String.eqb k k' then Some v else jlookup k rest
  end.

(** * The UI-agnostic engine, [story_engine/core.py] *)
Module Core.

Inductive MessageType := INFO | IMPORTANT | SOUND | ANIMATION.

(** The eleven slots of [Inventory.__init__], in the order of the source. *)
Definition slots : list string :=
  ["Head"; "Neck"; "Ears"; "Mouth"; "Right hand"; "Left hand"; "Back";
   "Right leg"; "Left leg"; "Right leg bottom"; "Left leg bottom"].

Section Engine.
Context {Fn : Type}.

(** The third component of an occupied slot: the callback given to
    [add_item], or the [lambda s: None] that [load_state] puts there. *)
Inductive equip :=
  | LambdaNone
  | Equip (f : Fn).

(** An occupied slot, [[item, description, function]]. *)
Record item := Item {
  item_name : string;
  item_description : string;
  item_function : equip }.

(** *** HealthSystem *)
Record HealthSystem := { _hp : Z }.

Definition modify_hp (amount : Z) (h : HealthSystem) : HealthSystem :=
  {| _hp := Z.max 0 (_hp h + amount) |}.

Definition get_hp (h : HealthSystem) : Z := _hp h.

(** *** Inventory: [_items] maps a slot to [[]] ([None]) or to an item. *)
Record Inventory := { _items : gmap string (option item) }.

Definition new_Inventory : Inventory :=
  {| _items := list_to_map ((fun slot => (slot, None)) <$> slots) |}.

Definition add_item (slot name description : string) (function : equip)
    (inv : Inventory) : Inventory :=
  {| _items := <[slot := Some (Item name description function)]> (_items inv) |}.

Definition remove_item (slot : string) (inv : Inventory) : Inventory :=
  {| _items := <[slot := None]> (_items inv) |}.

(** [{slot: data for slot, data in self._items.items() if data}] *)
Definition get_items (inv : Inventory) : gmap string item :=
  omap id (_items inv).

(** *** Achievements *)
Record Achievements := { _achievements : gmap string string }.

Definition new_Achievements : Achievements := {| _achievements := ∅ |}.

Definition add_achievement (name description : string) (a : Achievements)
    : Achievements :=
  {| _achievements := <[name := description]> (_achievements a) |}.

Definition get_achievements (a : Achievements) : gmap string string :=
  _achievements a.

(** *** Messages: an f-string is kept as its literal part and the value
    interpolated after it, when that value is not known to be a string. *)
Inductive message :=
  | Text (s : string)
  | Interpolated (prefix : string) (v : value Fn).

Definition entry : Type := message * option MessageType.

(** *** Effect, Puzzle, NPC *)
Record Effect := {
  eff_name : string;
  duration : Z;
  eff_apply : Fn;
  expire : option Fn }.

Record Puzzle := {
  question : string;
  options : list string;
  answer_index : Z;
  on_success : option Fn;
  on_fail : option Fn }.

Record NPC := {
  npc_name : string;
  dialogue : value Fn;
  dialogue_path : list string }.

(** *** Story.  [effects] maps a name to a reference into [heap], where
    the [Effect] objects live; the thread handle and the sleep interval
    of the tick loop have no counterpart. *)
Record Story := {
  _database : value Fn;
  _flags : gmap string bool;
  _inventory : Inventory;
  _achievements_of : Achievements;
  _health : HealthSystem;
  _log : list entry;
  _messages : list entry;
  map_nodes : gmap (list string) (value Fn);
  npcs : gmap string NPC;
  effects : list (string * nat);
  heap : list Effect;
  current_puzzle : option Puzzle;
  tick_function : option Fn;
  auto_save : option string;
  path : list string;
  _stop : bool }.

(** Field updates. *)
Definition set_flags (x : gmap string bool) (s : Story) : Story :=
  {| _database := _database s; _flags := x; _inventory := _inventory s;
     _achievements_of := _achievements_of s; _health := _health s;
     _log := _log s; _messages := _messages s; map_nodes := map_nodes s;
     npcs := npcs s; effects := effects s; heap := heap s;
     current_puzzle := current_puzzle s; tick_function := tick_function s;
     auto_save := auto_save s; path := path s; _stop := _stop s |}.

Definition set_inventory (x : Inventory) (s : Story) : Story :=
  {| _database := _database s; _flags := _flags s; _inventory := x;
     _achievements_of := _achievements_of s; _health := _health s;
     _log := _log s; _messages := _messages s; map_nodes := map_nodes s;
     npcs := npcs s; effects := effects s; heap := heap s;
     current_puzzle := current_puzzle s; tick_function := tick_function s;
     auto_save := auto_save s; path := path s; _stop := _stop s |}.

Definition set_achievements (x : Achievements) (s : Story) : Story :=
  {| _database := _database s; _flags := _flags s; _inventory := _inventory s;
     _achievements_of := x; _health := _health s;
     _log := _log s; _messages := _messages s; map_nodes := map_nodes s;
     npcs := npcs s; effects := effects s; heap := heap s;
     current_puzzle := current_puzzle s; tick_function := tick_function s;
     auto_save := auto_save s; path := path s; _stop := _stop s |}.

Definition set_health (x : HealthSystem) (s : Story) : Story :=
  {| _database := _database s; _flags := _flags s; _inventory := _inventory s;
     _achievements_of := _achievements_of s; _health := x;
     _log := _log s; _messages := _messages s; map_nodes := map_nodes s;
     npcs := npcs s; effects := effects s; heap := heap s;
     current_puzzle := current_puzzle s; tick_function := tick_function s;
     auto_save := auto_save s; path := path s; _stop := _stop s |}.

Definition set_log (x : list entry) (s : Story) : Story :=
  {| _database := _database s; _flags := _flags s; _inventory := _inventory s;
     _achievements_of := _achievements_of s; _health := _health s;
     _log := x; _messages := _messages s; map_nodes := map_nodes s;
     npcs := npcs s; effects := effects s; heap := heap s;
     current_puzzle := current_puzzle s; tick_function := tick_function s;
     auto_save := auto_save s; path := path s; _stop := _stop s |}.

Definition set_messages (x : list entry) (s : Story) : Story :=
  {| _database := _database s; _flags := _flags s; _inventory := _inventory s;
     _achievements_of := _achievements_of s; _health := _health s;
     _log := _log s; _messages := x; map_nodes := map_nodes s;
     npcs := npcs s; effects := effects s; heap := heap s;
     current_puzzle := current_puzzle s; tick_function := tick_function s;
     auto_save := auto_save s; path := path s; _stop := _stop s |}.

Definition set_map_nodes (x : gmap (list string) (value Fn)) (s : Story) : Story :=
  {| _database := _database s; _flags := _flags s; _inventory := _inventory s;
     _achievements_of := _achievements_of s; _health := _health s;
     _log := _log s; _messages := _messages s; map_nodes := x;
     npcs := npcs s; effects := effects s; heap := heap s;
     current_puzzle := current_puzzle s; tick_function := tick_function s;
     auto_save := auto_save s; path := path s; _stop := _stop s |}.

Definition set_npcs (x : gmap string NPC) (s : Story) : Story :=
  {| _database := _database s; _flags := _flags s; _inventory := _inventory s;
     _achievements_of := _achievements_of s; _health := _health s;
     _log := _log s; _messages := _messages s; map_nodes := map_nodes s;
     npcs := x; effects := effects s; heap := heap s;
     current_puzzle := current_puzzle s; tick_function := tick_function s;
     auto_save := auto_save s; path := path s; _stop := _stop s |}.

Definition set_effects (x : list (string * nat)) (s : Story) : Story :=
  {| _database := _database s; _flags := _flags s; _inventory := _inventory s;
     _achievements_of := _achievements_of s; _health := _health s;
     _log := _log s; _messages := _messages s; map_nodes := map_nodes s;
     npcs := npcs s; effects := x; heap := heap s;
     current_puzzle := current_puzzle s; tick_function := tick_function s;
     auto_save := auto_save s; path := path s; _stop := _stop s |}.

Definition set_heap (x : list Effect) (s : Story) : Story :=
  {| _database := _database s; _flags := _flags s; _inventory := _inventory s;
     _achievements_of := _achievements_of s; _health := _health s;
     _log := _log s; _messages := _messages s; map_nodes := map_nodes s;
     npcs := npcs s; effects := effects s; heap := x;
     current_puzzle := current_puzzle s; tick_function := tick_function s;
     auto_save := auto_save s; path := path s; _stop := _stop s |}.

Definition set_path (x : list string) (s : Story) : Story :=
  {| _database := _database s; _flags := _flags s; _inventory := _inventory s;
     _achievements_of := _achievements_of s; _health := _health s;
     _log := _log s; _messages := _messages s; map_nodes := map_nodes s;
     npcs := npcs s; effects := effects s; heap := heap s;
     current_puzzle := current_puzzle s; tick_function := tick_function s;
     auto_save := auto_save s; path := x; _stop := _stop s |}.

(** [Story.__init__], without the thread. *)
Definition new_Story (database : value Fn) (values : gmap string bool)
    (tick : option Fn) (autosave : option string) : Story :=
  {| _database := database; _flags := values; _inventory := new_Inventory;
     _achievements_of := new_Achievements; _health := {| _hp := 10 |};
     _log := []; _messages := []; map_nodes := ∅; npcs := ∅;
     effects := []; heap := []; current_puzzle := None;
     tick_function := tick; auto_save := autosave; path := [];
     _stop := false |}.

(** ** The engine's computations

    A method of [Story] runs in a world made of the story, the files it
    can open, and a ghost record of the callbacks the engine has invoked,
    kept out of the callbacks' reach.  A fault leaves the world as it was
    when the fault was raised. *)
Inductive event :=
  | Entry (f : Fn)       (* node["function"](self) *)
  | Choice (f : Fn)      (* choice_data["function"](self) *)
  | Applied (f : Fn)     (* effect.apply(self) *)
  | Expired (f : Fn)     (* effect.expire(self) *)
  | Succeeded (f : Fn)   (* puzzle.on_success(story) *)
  | Failed (f : Fn)      (* puzzle.on_fail(story) *)
  | Ticked (f : Fn).     (* self.tick_function(self) *)

Record world := World {
  story : Story;
  files : gmap string content;
  trace : list event }.

Definition M (A : Type) : Type := world -> result A * world.

Definition ret {A} (a : A) : M A := fun w => (Ok a, w).

Definition bind {A B} (m : M A) (k : A -> M B) : M B :=
  fun w =>
    match m w with
    | (Ok a, w') => k a w'
    | (Raise e, w') => (Raise e, w')
    end.

Definition raise {A} (e : exn) : M A := fun w => (Raise e, w).

Definition lift {A} (r : result A) : M A := fun w => (r, w).

Definition get_story : M Story := fun w => (Ok (story w), w).

Definition modify (f : Story -> Story) : M unit :=
  fun w => (Ok tt, World (f (story w)) (files w) (trace w)).

Local Notation "'let!' x ':=' m 'in' k" := (bind m (fun x => k))
  (at level 10, x pattern, m at level 100, k at level 200).
Local Notation "m ';;;' k" := (bind m (fun _ => k))
  (at level 100, k at level 200, right associativity).

(** How a callback acts on the story it is handed. *)
Variable call : Fn -> Story -> Story.

Definition invoke (role : Fn -> event) (f : Fn) : M unit :=
  fun w => (Ok tt, World (call f (story w)) (files w) (trace w ++ [role f])).

(** *** Messages and log *)
Definition print (m : message) (style : option MessageType) : M unit :=
  modify (fun s => set_messages (_messages s ++ [(m, style)]) s).

(** [EventLog.log] *)
Definition log (m : message) (style : option MessageType) : M unit :=
  modify (fun s => set_log (_log s ++ [(m, style)]) s) ;;;
  print m style.

(** *** Path traversal *)
Definition jump_to (new_path : list string) : M unit :=
  modify (set_path new_path).

(** [StoryMap.register] *)
Definition register (p : list string) (node : value Fn) : M unit :=
  modify (fun s => set_map_nodes (<[p := node]> (map_nodes s)) s).

Definition _get_node : M (value Fn) :=
  let! s := get_story in
  match walk (_database s) (path s) with
  | Ok node => register (path s) node ;;; ret node
  | Raise KeyError => ret (VDict ∅)
  | Raise e => raise e
  end.

Definition error_result (text : string) : value Fn :=
  VDict {[ "error" := VStr text ]}.

(** [if k in d and callable(d[k]): d[k](self)] *)
Definition run_function (role : Fn -> event) (d : value Fn) : M unit :=
  let! present := lift (py_in "function" d) in
  if present : bool then
    let! f := lift (py_getitem "function" d) in
    match callable f with
    | Some fn => invoke role fn
    | None => ret tt
    end
  else ret tt.

Definition step (answer : option string) : M (value Fn) :=
  let! node := _get_node in
  if negb (truthy node) then ret (error_result "Неверный путь.")
  else
    run_function Entry node ;;;
    match answer with
    | None => _get_node
    | Some a =>
        let! answers := lift (py_get "answers" (VDict ∅) node) in
        let! known := lift (py_in a answers) in
        if negb known then ret (error_result "Неверный выбор.")
        else
          let! choice_data := lift (py_getitem a answers) in
          run_function Choice choice_data ;;;
          let! next_path := lift (py_get "next_path" VNone choice_data) in
          match next_path with
          | VNone => _get_node
          | _ =>
              let! p := lift (copy_path next_path) in
              modify (set_path p) ;;;
              _get_node
          end
    end.

(** *** Flags, health, inventory, achievements on the story *)
Definition set_flag (key : string) (v : bool) : M unit :=
  modify (fun s => set_flags (<[key := v]> (_flags s)) s).

Definition get_flag (key : string) (s : Story) : bool :=
  default false (_flags s !! key).

Definition story_modify_hp (amount : Z) : M unit :=
  modify (fun s => set_health (modify_hp amount (_health s)) s).

Definition story_get_hp (s : Story) : Z := get_hp (_health s).

Definition story_add_item (slot name description : string) (f : equip) : M unit :=
  modify (fun s => set_inventory (add_item slot name description f (_inventory s)) s).

Definition story_remove_item (slot : string) : M unit :=
  modify (fun s => set_inventory (remove_item slot (_inventory s)) s).

(** [Story.get_items]: slot to (name, description). *)
Definition story_get_items (s : Story) : gmap string (string * string) :=
  (fun it => (item_name it, item_description it)) <$> get_items (_inventory s).

Definition story_add_achievement (name description : string) : M unit :=
  modify (fun s => set_achievements (add_achievement name description (_achievements_of s)) s).

Definition story_get_achievements (s : Story) : gmap string string :=
  get_achievements (_achievements_of s).

(** *** Effects

    [self.effects] is a dict in insertion order: assigning to a name that
    is present keeps its place, [del] of an absent name is a [KeyError]. *)
Fixpoint od_set {V} (k : string) (v : V) (d : list (string * V)) : list (string * V) :=
  match d with
  | [] => [(k, v)]
  | (k', v') :: rest =>
      if String.eqb k k' then (k, v) :: rest else (k', v') :: od_set k v rest
  end.

Fixpoint od_get {V} (k : string) (d : list (string * V)) : option V :=
  match d with
  | [] => None
  | (k', v') :: rest => if String.eqb k k' then Some v' else od_get k rest
  end.

Fixpoint od_del {V} (k : string) (d : list (string * V)) : option (list (string * V)) :=
  match d with
  | [] => None
  | (k', v') :: rest =>
      if String.eqb k k' then Some rest
      else match od_del k rest with
           | Some rest' => Some ((k', v') :: rest')
           | None => None
           end
  end.

(** [Effect(name, duration, apply, expire)]: a new object. *)
Definition new_Effect (e : Effect) : M nat :=
  let! s := get_story in
  modify (set_heap (heap s ++ [e])) ;;;
  ret (length (heap s)).

(** A reference always points into the heap in Python; the [None] branch
    is there to make the function total. *)
Definition deref (r : nat) : M Effect :=
  let! s := get_story in
  match heap s !! r with
  | Some e => ret e
  | None => raise IllTyped
  end.

Definition apply_effect (r : nat) : M unit :=
  let! e := deref r in
  modify (fun s => set_effects (od_set (eff_name e) r (effects s)) s) ;;;
  invoke Applied (eff_apply e).

Definition decrement (e : Effect) : Effect :=
  {| eff_name := eff_name e; duration := duration e - 1;
     eff_apply := eff_apply e; expire := expire e |}.

(** The first loop of [_update_effects], over the snapshot
    [list(self.effects.items())]; returns [expired]. *)
Fixpoint age (snapshot : list (string * nat)) : M (list string) :=
  match snapshot with
  | [] => ret []
  | (name, r) :: rest =>
      let! e := deref r in
      modify (fun s => set_heap (<[r := decrement e]> (heap s)) s) ;;;
      if duration (decrement e) <=? 0 then
        match expire e with
        | Some f => invoke Expired f
        | None => ret tt
        end ;;;
        let! expired := age rest in
        ret (name :: expired)
      else age rest
  end.

(** The second loop: [for name in expired: del self.effects[name]]. *)
Fixpoint forget (expired : list string) : M unit :=
  match expired with
  | [] => ret tt
  | name :: rest =>
      let! s := get_story in
      match od_del name (effects s) with
      | Some d => modify (set_effects d) ;;; forget rest
      | None => raise KeyError
      end
  end.

Definition _update_effects : M unit :=
  let! s := get_story in
  let! expired := age (effects s) in
  forget expired.

(** *** Puzzle *)
Definition run_optional (role : Fn -> event) (f : option Fn) : M unit :=
  match f with
  | Some fn => invoke role fn
  | None => ret tt
  end.

Definition attempt (p : Puzzle) (choice_index : Z) : M bool :=
  if choice_index =? answer_index p then
    run_optional Succeeded (on_success p) ;;;
    log (Text (String.append "Puzzle solved: " (question p))) (Some INFO) ;;;
    ret true
  else
    run_optional Failed (on_fail p) ;;;
    log (Text (String.append "Puzzle failed: " (question p))) (Some INFO) ;;;
    ret false.

(** *** NPC

    An [NPC] is an object of its own, so [talk] returns the NPC as the
    call leaves it next to the result, also when the call raises. *)
Definition npc_get_node (n : NPC) : result (value Fn) :=
  walk (dialogue n) (dialogue_path n).

(** A value stored in a [List[str]] attribute. *)
Definition as_path (v : value Fn) : result (list string) :=
  match v with
  | VList l =>
      match mapM as_str l with
      | Some p => Ok p
      | None => Raise IllTyped
      end
  | _ => Raise IllTyped
  end.

Definition set_dialogue_path (p : list string) (n : NPC) : NPC :=
  {| npc_name := npc_name n; dialogue := dialogue n; dialogue_path := p |}.

Definition talk (n : NPC) (choice : option string) (w : world)
    : result (value Fn) * NPC * world :=
  match npc_get_node n with
  | Raise e => (Raise e, n, w)
  | Ok node =>
      match py_get "text" (VStr "") node with
      | Raise e => (Raise e, n, w)
      | Ok text =>
          let w1 :=
            snd (log (Interpolated
                        (String.append "Talking to " (String.append (npc_name n) ": "))
                        text) (Some INFO) w) in
          match choice with
          | None | Some "" => (Ok node, n, w1)
          | Some c =>
              match py_get "responses" (VDict ∅) node with
              | Raise e => (Raise e, n, w1)
              | Ok answers =>
                  match py_in c answers with
                  | Raise e => (Raise e, n, w1)
                  | Ok false => (Ok (error_result "Invalid choice."), n, w1)
                  | Ok true =>
                      match result_bind (py_getitem c answers)
                              (fun r => result_bind (py_get "next" (VList []) r) as_path) with
                      | Raise e => (Raise e, n, w1)
                      | Ok p =>
                          let n' := set_dialogue_path p n in
                          (npc_get_node n', n', w1)
                      end
                  end
              end
          end
      end
  end.

Definition register_npc (n : NPC) : M unit :=
  modify (fun s => set_npcs (<[npc_name n := n]> (npcs s)) s).

(** [talk_to]: the NPC talked to is the object held in [self.npcs]. *)
Definition talk_to (name : string) (choice : option string) : M (option (value Fn)) :=
  fun w =>
    match npcs (story w) !! name with
    | None => (Ok None, w)
    | Some n =>
        let '(r, n', w') := talk n choice w in
        let w'' := World (set_npcs (<[name := n']> (npcs (story w'))) (story w'))
                         (files w') (trace w') in
        match r with
        | Ok v => (Ok (Some v), w'')
        | Raise e => (Raise e, w'')
        end
    end.

(** *** Save and load *)
Definition encode_items (inv : Inventory) : list (string * json) :=
  (fun '(slot, it) => (slot, JList [JStr (item_name it); JStr (item_description it)]))
    <$> map_to_list (get_items inv).

Definition encode_state (s : Story) : json :=
  JDict [
    ("hp", JInt (get_hp (_health s)));
    ("inventory", JDict (encode_items (_inventory s)));
    ("achievements",
       JDict ((fun '(k, d) => (k, JStr d)) <$> map_to_list (get_achievements (_achievements_of s))));
    ("flags", JDict ((fun '(k, b) => (k, JBool b)) <$> map_to_list (_flags s)));
    ("path", JList (JStr <$> path s)) ].

(** Which names [open(filename, "w")] can open: the others (a missing
    directory, a read-only place, the empty name) make it raise an
    [OSError], before anything is written. *)
Variable writable : string -> bool.

(** [json.dump] cannot fail on a state of the annotated types. *)
Definition save_state (filename : string) : M unit :=
  fun w =>
    if writable filename
    then (Ok tt,
          World (story w) (<[filename := Parsed (encode_state (story w))]> (files w)) (trace w))
    else (Raise OSError, w).

(** [state.get(k, dflt)] *)
Definition state_get (k : string) (dflt : json) (state : json) : result json :=
  match state with
  | JDict d => Ok (default dflt (jlookup k d))
  | _ => Raise AttributeError
  end.

(** [v.items()] *)
Definition items (v : json) : result (list (string * json)) :=
  match v with
  | JDict d => Ok d
  | _ => Raise AttributeError
  end.

Definition json_str (v : json) : result string :=
  match v with JStr s => Ok s | _ => Raise IllTyped end.

(** A string holds the UTF-8 bytes of a Python [str]; its characters
    are a leading byte each with the continuation bytes (10xxxxxx) that
    follow it. *)
Definition is_continuation (c : Ascii.ascii) : bool :=
  match c with
  | Ascii.Ascii _ _ _ _ _ _ b6 b7 => b7 && negb b6
  end.

Fixpoint characters (s : string) : list string :=
  match s with
  | EmptyString => []
  | String c rest =>
      match characters rest with
      | String c' g :: gs =>
          if is_continuation c' then String c (String c' g) :: gs
          else String c EmptyString :: String c' g :: gs
      | gs => String c EmptyString :: gs
      end
  end.

(** [data[i]] for [i] in 0, 1: an element of a list, a character of a
    string; an object has no key [i] and a scalar no index at all. *)
Definition json_index (i : nat) (data : json) : result json :=
  match data with
  | JList l => match l !! i with Some x => Ok x | None => Raise IndexError end
  | JStr s =>
      match characters s !! i with
      | Some c => Ok (JStr c)
      | None => Raise IndexError
      end
  | JDict _ => Raise KeyError
  | _ => Raise TypeError
  end.

Fixpoint load_achievements (l : list (string * json)) : M unit :=
  match l with
  | [] => ret tt
  | (ach, desc) :: rest =>
      let! d := lift (json_str desc) in
      story_add_achievement ach d ;;;
      load_achievements rest
  end.

Fixpoint load_inventory (l : list (string * json)) : M unit :=
  match l with
  | [] => ret tt
  | (slot, data) :: rest =>
      let! data0 := lift (json_index 0 data) in
      let! data1 := lift (json_index 1 data) in
      let! name := lift (json_str data0) in
      let! description := lift (json_str data1) in
      story_add_item slot name description LambdaNone ;;;
      load_inventory rest
  end.

Definition json_int (v : json) : result Z :=
  match v with JInt z => Ok z | _ => Raise IllTyped end.

Definition json_bool (v : json) : result bool :=
  match v with JBool b => Ok b | _ => Raise IllTyped end.

Fixpoint json_flags (l : list (string * json)) : result (gmap string bool) :=
  match l with
  | [] => Ok ∅
  | (k, v) :: rest =>
      result_bind (json_bool v) (fun b =>
      result_bind (json_flags rest) (fun m =>
      Ok (<[k := b]> m)))
  end.

Fixpoint json_strings (l : list json) : result (list string) :=
  match l with
  | [] => Ok []
  | v :: rest =>
      result_bind (json_str v) (fun s =>
      result_bind (json_strings rest) (fun p => Ok (s :: p)))
  end.

Definition open_read (filename : string) : M json :=
  fun w =>
    match files w !! filename with
    | None => (Raise FileNotFoundError, w)
    | Some Malformed => (Raise JSONDecodeError, w)
    | Some (Parsed j) => (Ok j, w)
    end.

Definition load_state (filename : string) : M unit :=
  let! state := open_read filename in
  let! hp := lift (result_bind (state_get "hp" (JInt 0) state) json_int) in
  modify (set_health {| _hp := hp |}) ;;;
  modify (set_achievements new_Achievements) ;;;
  let! achs := lift (result_bind (state_get "achievements" (JDict []) state) items) in
  load_achievements achs ;;;
  modify (set_inventory new_Inventory) ;;;
  let! inv := lift (result_bind (state_get "inventory" (JDict []) state) items) in
  load_inventory inv ;;;
  let! flags :=
    lift (result_bind (state_get "flags" (JDict []) state)
            (fun v => match v with JDict d => json_flags d | _ => Raise IllTyped end)) in
  modify (set_flags flags) ;;;
  let! p :=
    lift (result_bind (state_get "path" (JList []) state)
            (fun v => match v with JList l => json_strings l | _ => Raise IllTyped end)) in
  modify (set_path p).

(** *** One iteration of [_run_tick] (the sleep has no counterpart) *)
Definition tick : M unit :=
  let! s := get_story in
  run_optional Ticked (tick_function s) ;;;
  _update_effects ;;;
  let! s' := get_story in
  match auto_save s' with
  | None | Some "" => ret tt
  | Some filename => save_state filename
  end.

(** *** The message buffer and the remaining queries *)
Definition clear_messages : M unit := modify (set_messages []).

Definition get_messages (s : Story) : list entry := _messages s.

Definition get_log (s : Story) : list entry := _log s.

Definition get_all_flags (s : Story) : gmap string bool := _flags s.

End Engine.

Arguments equip : clear implicits.
Arguments item : clear implicits.
Arguments Inventory : clear implicits.
Arguments message : clear implicits.
Arguments Effect : clear implicits.
Arguments Puzzle : clear implicits.
Arguments NPC : clear implicits.
Arguments Story : clear implicits.
Arguments event : clear implicits.
Arguments world : clear implicits.
Arguments M : clear implicits.

(** *** StoryMap.generate_map

    The tree is a dict of dicts, built in place by [setdefault]; a dict
    is the list of its entries in insertion order.  The paths are taken
    in the order the finite map lists them, which need not be the order
    of registration: that order decides where an entry sits among its
    siblings, not which entries there are. *)
Inductive tree := Tree (children : list (string * tree)).

(** [current.setdefault(step, {})] followed by what the rest of the
    path does below the entry it returns. *)
Fixpoint setdefault_then (k : string) (below : tree -> tree)
    (children : list (string * tree)) : list (string * tree) :=
  match children with
  | [] => [(k, below (Tree []))]
  | (k', sub) :: rest =>
      if String.eqb k k' then (k', below sub) :: rest
      else (k', sub) :: setdefault_then k below rest
  end.

Fixpoint insert_path (p : list string) (t : tree) : tree :=
  match p with
  | [] => t
  | k :: rest =>
      match t with
      | Tree children => Tree (setdefault_then k (insert_path rest) children)
      end
  end.

Definition generate_map {V} (nodes : gmap (list string) V) : tree :=
  foldl (fun t p => insert_path p t) (Tree []) (map_to_list nodes).*1.

End Core.

(** * The engine coupled to the terminal UI, [story_engine.py]

    Only the state-keeping classes and save/load are modelled; the
    [textual] application and the [rich] console are the presentation
    layer (what [print] sends to the console is kept as a list). *)
Module Tui.

Section Engine.
Context {Fn : Type}.

Record HealthSystem := { _hp : Z }.

Definition modify_hp (amount : Z) (h : HealthSystem) : HealthSystem :=
  let hp := _hp h + amount in
  {| _hp := if hp <? 0 then 0 else hp |}.

Definition get_hp (h : HealthSystem) : Z := _hp h.

Record Inventory := { _items : gmap string (option (Core.item Fn)) }.

Definition new_Inventory : Inventory :=
  {| _items :=
       {[ "Head" := None; "Neck" := None; "Ears" := None; "Mouth" := None;
          "Right hand" := None; "Left hand" := None; "Back" := None;
          "Right leg" := None; "Left leg" := None;
          "Right leg bottom" := None; "Left leg bottom" := None ]} |}.

Definition add_item (slot name description : string) (function : Core.equip Fn)
    (inv : Inventory) : Inventory :=
  {| _items := <[slot := Some (Core.Item name description function)]> (_items inv) |}.

Definition remove_item (slot : string) (inv : Inventory) : Inventory :=
  {| _items := <[slot := None]> (_items inv) |}.

(** Here [get_items] hands back the whole dict, empty slots included. *)
Definition get_items (inv : Inventory) : gmap string (option (Core.item Fn)) :=
  _items inv.

Definition add_achievement (achievement description : string)
    (a : gmap string string) : gmap string string :=
  <[achievement := description]> a.

(** What [print] is given: a plain text, or the f-string of
    [load_state]'s handler with the exception it caught. *)
Inductive message :=
  | Text (s : string)
  | LoadError (e : exn).

Definition entry : Type := message * option string.

Record Story := {
  _database : value Fn;
  _values : value Fn;
  _inventory : Inventory;
  _achievements : gmap string string;
  _health : HealthSystem;
  _tick_function : option Fn;
  _messages : list entry;
  _console : list entry;
  _stop : bool }.

Definition set_health (x : HealthSystem) (s : Story) : Story :=
  {| _database := _database s; _values := _values s; _inventory := _inventory s;
     _achievements := _achievements s; _health := x;
     _tick_function := _tick_function s; _messages := _messages s;
     _console := _console s; _stop := _stop s |}.

Definition set_inventory (x : Inventory) (s : Story) : Story :=
  {| _database := _database s; _values := _values s; _inventory := x;
     _achievements := _achievements s; _health := _health s;
     _tick_function := _tick_function s; _messages := _messages s;
     _console := _console s; _stop := _stop s |}.

Definition set_achievements (x : gmap string string) (s : Story) : Story :=
  {| _database := _database s; _values := _values s; _inventory := _inventory s;
     _achievements := x; _health := _health s;
     _tick_function := _tick_function s; _messages := _messages s;
     _console := _console s; _stop := _stop s |}.

(** [print]: to the console and into the message buffer. *)
Definition print (m : message) (style : option string) (s : Story) : Story :=
  {| _database := _database s; _values := _values s; _inventory := _inventory s;
     _achievements := _achievements s; _health := _health s;
     _tick_function := _tick_function s;
     _messages := _messages s ++ [(m, style)];
     _console := _console s ++ [(m, style)]; _stop := _stop s |}.

(** [state[k]]: a missing key of a dict is a [KeyError]; nothing else
    can be indexed by a string. *)
Definition state_item (k : string) (state : json) : result json :=
  match state with
  | JDict d => match jlookup k d with Some v => Ok v | None => Raise KeyError end
  | _ => Raise TypeError
  end.

Fixpoint load_achievements (l : list (string * json)) (s : Story) : result unit * Story :=
  match l with
  | [] => (Ok tt, s)
  | (ach, desc) :: rest =>
      match Core.json_str desc with
      | Ok d => load_achievements rest (set_achievements (add_achievement ach d (_achievements s)) s)
      | Raise e => (Raise e, s)
      end
  end.

Fixpoint load_inventory (l : list (string * json)) (s : Story) : result unit * Story :=
  match l with
  | [] => (Ok tt, s)
  | (slot, data) :: rest =>
      match Core.json_index 0 data, Core.json_index 1 data with
      | Ok a, Ok b =>
          match Core.json_str a, Core.json_str b with
          | Ok name, Ok description =>
              load_inventory rest
                (set_inventory (add_item slot name description Core.LambdaNone (_inventory s)) s)
          | Raise e, _ | _, Raise e => (Raise e, s)
          end
      | Raise e, _ | _, Raise e => (Raise e, s)
      end
  end.

(** The body of the [try]. *)
Definition load_body (filename : string) (files : gmap string content) (s : Story)
    : result unit * Story :=
  match files !! filename with
  | None => (Raise FileNotFoundError, s)
  | Some Malformed => (Raise JSONDecodeError, s)
  | Some (Parsed state) =>
      match result_bind (state_item "hp" state) Core.json_int with
      | Raise e => (Raise e, s)
      | Ok hp =>
          let s1 := set_achievements ∅ (set_health {| _hp := hp |} s) in
          match result_bind (state_item "achievements" state) Core.items with
          | Raise e => (Raise e, s1)
          | Ok achs =>
              match load_achievements achs s1 with
              | (Raise e, s2) => (Raise e, s2)
              | (Ok _, s2) =>
                  let s3 := set_inventory new_Inventory s2 in
                  match result_bind (state_item "inventory" state) Core.items with
                  | Raise e => (Raise e, s3)
                  | Ok inv => load_inventory inv s3
                  end
              end
          end
      end
  end.

(** [except Exception as e: self.print(...)].  [IllTyped] is no Python
    exception, so the handler does not see it. *)
Definition load_state (filename : string) (files : gmap string content) (s : Story)
    : result unit * Story :=
  match load_body filename files s with
  | (Ok _, s') => (Ok tt, s')
  | (Raise IllTyped, s') => (Raise IllTyped, s')
  | (Raise e, s') => (Ok tt, print (LoadError e) (Some "bold red") s')
  end.

Definition encode_state (s : Story) : json :=
  JDict [
    ("hp", JInt (get_hp (_health s)));
    ("inventory",
       JDict ((fun '(slot, it) =>
                 (slot, JList [JStr (Core.item_name it); JStr (Core.item_description it)]))
              <$> map_to_list (omap id (get_items (_inventory s)))));
    ("achievements", JDict ((fun '(k, d) => (k, JStr d)) <$> map_to_list (_achievements s))) ].

Definition save_state (filename : string) (files : gmap string content) (s : Story)
    : gmap string content :=
  <[filename := Parsed (encode_state s)]> files.

(** [Story.get_items]: the occupied slots, name and description. *)
Definition story_get_items (s : Story) : gmap string (string * string) :=
  (fun it => (Core.item_name it, Core.item_description it))
    <$> omap id (get_items (_inventory s)).

End Engine.

Arguments Story : clear implicits.
Arguments Inventory : clear implicits.

End Tui.

(** * Vocabulary of the statements *)

(** A small language of callbacks to run the engine on concrete stories. *)
Module Script.

Inductive op :=
  | Nop
  | Heal (amount : Z)
  | JumpTo (new_path : list string)
  | SetFlag (key : string) (v : bool).

(** What each callback does with the story it receives, through the
    story's own methods. *)
Definition run (f : op) (s : Core.Story op) : Core.Story op :=
  match f with
  | Nop => s
  | Heal amount => Core.set_health (Core.modify_hp amount (Core._health s)) s
  | JumpTo p => Core.set_path p s
  | SetFlag k v => Core.set_flags (<[k := v]> (Core._flags s)) s
  end.

Definition start (database : value op) (p : list string) : Core.world op :=
  Core.World (Core.set_path p (Core.new_Story database ∅ None None)) ∅ [].

(** The two-node story of the specification's scenario; [entry], when
    given, is the ["function"] of the [start] node. *)
Definition cave : gmap string (value op) :=
  {[ "condition" := VStr "Dark cave" ]}.

Definition forest_node (entry : option op) : gmap string (value op) :=
  let node : gmap string (value op) :=
    {[ "condition" := VStr "Forest";
       "answers" := VDict {[ "go north" := VDict {[ "next_path" := VList [VStr "cave"] ]} ]} ]} in
  match entry with
  | Some f => <[ "function" := VFn f ]> node
  | None => node
  end.

Definition forest (entry : option op) : value op :=
  VDict {[ "start" := VDict (forest_node entry); "cave" := VDict cave ]}.

End Script.

(** Successive calls of [modify_hp]. *)
Definition hp_after (h : Core.HealthSystem) (deltas : list Z) : Core.HealthSystem :=
  fold_left (fun h d => Core.modify_hp d h) deltas h.

Definition tui_hp_after (h : Tui.HealthSystem) (deltas : list Z) : Tui.HealthSystem :=
  fold_left (fun h d => Tui.modify_hp d h) deltas h.

Definition total (deltas : list Z) : Z := fold_right Z.add 0 deltas.

(** The largest sum of a suffix of the list, the empty one included. *)
Fixpoint best_suffix (deltas : list Z) : Z :=
  match deltas with
  | [] => 0
  | d :: rest => Z.max (d + total rest) (best_suffix rest)
  end.

(** Calls on an inventory. *)
Inductive inventory_call {Fn : Type} :=
  | AddItem (slot name description : string) (function : Core.equip Fn)
  | RemoveItem (slot : string).
Arguments inventory_call : clear implicits.

Definition call_slot {Fn} (c : inventory_call Fn) : string :=
  match c with
  | AddItem slot _ _ _ => slot
  | RemoveItem slot => slot
  end.

Definition do_call {Fn} (inv : Core.Inventory Fn) (c : inventory_call Fn) : Core.Inventory Fn :=
  match c with
  | AddItem slot name description f => Core.add_item slot name description f inv
  | RemoveItem slot => Core.remove_item slot inv
  end.

Definition tui_do_call {Fn} (inv : Tui.Inventory Fn) (c : inventory_call Fn) : Tui.Inventory Fn :=
  match c with
  | AddItem slot name description f => Tui.add_item slot name description f inv
  | RemoveItem slot => Tui.remove_item slot inv
  end.

(** A result that carries an ["error"] key. *)
Definition is_error {Fn} (v : value Fn) : bool :=
  match v with
  | VDict d => bool_decide (is_Some (d !! "error"))
  | _ => false
  end.

(** The callable stored under ["function"] in a node, if any. *)
Definition entry_function {Fn} (d : gmap string (value Fn)) : option Fn :=
  match d !! "function" with
  | Some v => callable v
  | None => None
  end.

(** The story once [_get_node] has recorded the node it resolved. *)
Definition visited {Fn} (node : value Fn) (s : Core.Story Fn) : Core.Story Fn :=
  Core.set_map_nodes (<[Core.path s := node]> (Core.map_nodes s)) s.

(** The world once the entry function of node [d], if it has one, has
    been invoked. *)
Definition after_entry {Fn} (call : Fn -> Core.Story Fn -> Core.Story Fn)
    (d : gmap string (value Fn)) (w : Core.world Fn) : Core.world Fn :=
  match entry_function d with
  | Some f => Core.World (call f (Core.story w)) (Core.files w) (Core.trace w ++ [Core.Entry f])
  | None => w
  end.

(** A callback that may be missing: what invoking it does to the story
    and to the record of invocations. *)
Definition optional_call {Fn} (call : Fn -> Core.Story Fn -> Core.Story Fn)
    (f : option Fn) (s : Core.Story Fn) : Core.Story Fn :=
  match f with
  | Some fn => call fn s
  | None => s
  end.

Definition optional_event {Fn} (role : Fn -> Core.event Fn) (f : option Fn)
    : list (Core.event Fn) :=
  match f with
  | Some fn => [role fn]
  | None => []
  end.

(** The story once [EventLog.log] has recorded a message. *)
Definition logged {Fn} (m : Core.message Fn) (style : option Core.MessageType)
    (s : Core.Story Fn) : Core.Story Fn :=
  let s1 := Core.set_log (Core._log s ++ [(m, style)]) s in
  Core.set_messages (Core._messages s1 ++ [(m, style)]) s1.

(** Successive attempts on one puzzle. *)
Fixpoint attempts {Fn} (call : Fn -> Core.Story Fn -> Core.Story Fn)
    (p : Core.Puzzle Fn) (indices : list Z) : Core.M Fn (list bool) :=
  match indices with
  | [] => Core.ret []
  | i :: rest =>
      Core.bind (Core.attempt call p i) (fun b =>
      Core.bind (attempts call p rest) (fun bs => Core.ret (b :: bs)))
  end.

(** A guard whose only response leads to a node its tree does not have. *)
Definition guard : Core.NPC Script.op :=
  {| Core.npc_name := "Guard";
     Core.dialogue :=
       VDict {[ "text" := VStr "Halt!";
                "responses" := VDict {[ "follow" := VDict {[ "next" := VList [VStr "camp"] ]} ]} ]};
     Core.dialogue_path := [] |}.

(** The fields of a saved state, as [json.dump] writes them. *)
Definition encode_inventory (l : list (string * (string * string))) : json :=
  JDict ((fun '(slot, (name, description)) => (slot, JList [JStr name; JStr description])) <$> l).

Definition encode_achievements (l : list (string * string)) : json :=
  JDict ((fun '(k, d) => (k, JStr d)) <$> l).

Definition encode_flags (l : list (string * bool)) : json :=
  JDict ((fun '(k, b) => (k, JBool b)) <$> l).

Definition encode_path (p : list string) : json := JList (JStr <$> p).

(** The inventory and achievements that [load_state] rebuilds from such
    fields, assignment by assignment. *)
Definition rebuilt_items {Fn} (l : list (string * (string * string)))
    : gmap string (option (Core.item Fn)) :=
  foldl (fun m '(slot, (name, description)) =>
           <[slot := Some (Core.Item name description Core.LambdaNone)]> m)
    (Core._items Core.new_Inventory) l.

Definition rebuilt_achievements (l : list (string * string)) : gmap string string :=
  foldl (fun m '(k, d) => <[k := d]> m) ∅ l.

Definition tui_rebuilt_items {Fn} (l : list (string * (string * string)))
    : gmap string (option (Core.item Fn)) :=
  foldl (fun m '(slot, (name, description)) =>
           <[slot := Some (Core.Item name description Core.LambdaNone)]> m)
    (Tui._items Tui.new_Inventory) l.


(** Whether the effect behind a registry entry runs out on this tick. *)
Definition expires {Fn} (h : list (Core.Effect Fn)) (x : string * nat) : bool :=
  match h !! x.2 with
  | Some e => Core.duration e - 1 <=? 0
  | None => false
  end.

(** The expiry callbacks a tick owes, in registry order. *)
Fixpoint expiry_events {Fn} (h : list (Core.Effect Fn)) (registry : list (string * nat))
    : list (Core.event Fn) :=
  match registry with
  | [] => []
  | x :: rest =>
      (if expires h x
       then match h !! x.2 with
            | Some e => optional_event Core.Expired (Core.expire e)
            | None => []
            end
       else []) ++ expiry_events h rest
  end.

(** A callback that leaves the effect registry and the effect objects
    as it found them. *)
Definition quiet {Fn} (call : Fn -> Core.Story Fn -> Core.Story Fn) (f : Fn) : Prop :=
  forall s, Core.effects (call f s) = Core.effects s /\ Core.heap (call f s) = Core.heap s.

(** The registry names distinct objects of the heap, under their names. *)
Definition registry_ok {Fn} (s : Core.Story Fn) : Prop :=
  NoDup (Core.effects s).*1
  /\ NoDup (Core.effects s).*2
  /\ Forall (fun x => is_Some (Core.heap s !! x.2)) (Core.effects s).

(** A story in which a poison of the given duration has just been
    registered: it costs a hit point when applied and gives five back
    when it expires. *)
Definition poisoned (d : Z) : Core.world Script.op :=
  snd (Core.bind
         (Core.new_Effect {| Core.eff_name := "poison"; Core.duration := d;
                             Core.eff_apply := Script.Heal (-1);
                             Core.expire := Some (Script.Heal 5) |})
         (Core.apply_effect Script.run)
         (Script.start (Script.forest None) ["start"])).

(** The eleven slot names as a set. *)
Definition slot_set : gset string := list_to_set Core.slots.

(** The world once the callable under ["function"] in the mapping [d],
    if there is one, has been invoked in the given role. *)
Definition after_function {Fn} (call : Fn -> Core.Story Fn -> Core.Story Fn)
    (role : Fn -> Core.event Fn) (d : gmap string (value Fn)) (w : Core.world Fn)
    : Core.world Fn :=
  Core.World (optional_call call (entry_function d) (Core.story w)) (Core.files w)
    (Core.trace w ++ optional_event role (entry_function d)).

(** What [_get_node] returns for the outcome of the walk. *)
Definition resolved {Fn} (r : result (value Fn)) : result (value Fn) :=
  match r with
  | Ok node => Ok node
  | Raise KeyError => Ok (VDict ∅)
  | Raise e => Raise e
  end.

(** Following a path down a generated tree. *)
Fixpoint child (k : string) (children : list (string * Core.tree)) : option Core.tree :=
  match children with
  | [] => None
  | (k', sub) :: rest => if String.eqb k k' then Some sub else child k rest
  end.

Fixpoint tree_walk (p : list string) (t : Core.tree) : option Core.tree :=
  match p with
  | [] => Some t
  | k :: rest =>
      match t with
      | Core.Tree children =>
          match child k children with
          | Some sub => tree_walk rest sub
          | None => None
          end
      end
  end.

(** The slots that hold an item after a sequence of calls on a new
    inventory: a slot is occupied when the last call that named it was
    [add_item]. *)
Definition occupied_after {Fn} (cs : list (inventory_call Fn)) : gset string :=
  fold_left (fun (occupied : gset string) c =>
               match c with
               | AddItem slot _ _ _ => {[ slot ]} ∪ occupied
               | RemoveItem slot => occupied ∖ {[ slot ]}
               end) cs ∅.

(** Logging a list of entries, one call of [EventLog.log] each. *)
Fixpoint log_all {Fn} (entries : list (Core.message Fn * option Core.MessageType))
    : Core.M Fn unit :=
  match entries with
  | [] => Core.ret tt
  | (m, style) :: rest => Core.bind (Core.log m style) (fun _ => log_all rest)
  end.

(** A stronger poison, as a second object of the same name. *)
Definition venom : Core.Effect Script.op :=
  {| Core.eff_name := "poison"; Core.duration := 5;
     Core.eff_apply := Script.Heal (-2); Core.expire := Some (Script.Heal 2) |}.

(** So many ticks of the effect clock, one after the other. *)
Fixpoint ticks {Fn} (call : Fn -> Core.Story Fn -> Core.Story Fn) (k : nat)
    : Core.M Fn unit :=
  match k with
  | O => Core.ret tt
  | S k' => Core.bind (Core._update_effects call) (fun _ => ticks call k')
  end.

(** Every expiry callback of an effect object leaves the registry and
    the effect objects alone. *)
Definition effects_quiet {Fn} (call : Fn -> Core.Story Fn -> Core.Story Fn)
    (s : Core.Story Fn) : Prop :=
  forall r e f, Core.heap s !! r = Some e -> Core.expire e = Some f -> quiet call f.

(** The files once the autosave of a tick, if one is configured, has
    written the story. *)
Definition autosaved {Fn} (s : Core.Story Fn) (fs : gmap string content)
    : gmap string content :=
  match Core.auto_save s with
  | None | Some "" => fs
  | Some filename => <[filename := Parsed (Core.encode_state s)]> fs
  end.

(** The world once [talk] has logged what the NPC says at node [d]. *)
Definition talked {Fn} (n : Core.NPC Fn) (d : gmap string (value Fn)) (w : Core.world Fn)
    : Core.world Fn :=
  Core.World
    (logged (Core.Interpolated
               (String.append "Talking to " (String.append (Core.npc_name n) ": "))
               (default (VStr "") (d !! "text")))
       (Some Core.INFO) (Core.story w))
    (Core.files w) (Core.trace w).

(** [talk_to]'s result for [talk]'s. *)
Definition some_result {A} (r : result A) : result (option A) :=
  match r with
  | Ok v => Ok (Some v)
  | Raise e => Raise e
  end.

(** The contract of a tick, in the words of the specification, as a
    function on the story: every effect of the registry in turn has its
    duration decremented, and the expiry callback of one that reaches
    zero or less, if it has one, is invoked on the story so far. *)
Fixpoint age_story {Fn} (call : Fn -> Core.Story Fn -> Core.Story Fn)
    (registry : list (string * nat)) (s : Core.Story Fn) : Core.Story Fn :=
  match registry with
  | [] => s
  | (name, r) :: rest =>
      match Core.heap s !! r with
      | Some e =>
          let s1 := Core.set_heap (<[r := Core.decrement e]> (Core.heap s)) s in
          age_story call rest
            (if Core.duration e - 1 <=? 0
             then optional_call call (Core.expire e) s1
             else s1)
      | None => s
      end
  end.

(** Callbacks that edit the effect registry: [Unregister name] is
    [lambda s: s.effects.pop(name, None)]. *)
Inductive hook :=
  | Unregister (name : string)
  | Idle.

Definition run_hook (f : hook) (s : Core.Story hook) : Core.Story hook :=
  match f with
  | Unregister name =>
      match Core.od_del name (Core.effects s) with
      | Some registry => Core.set_effects registry s
      | None => s
      end
  | Idle => s
  end.

(** A story with two effects of duration 1; the expiry callback of the
    first takes the first out of the registry. *)
Definition burning : Core.world hook :=
  snd (Core.bind
         (Core.new_Effect {| Core.eff_name := "burn"; Core.duration := 1;
                             Core.eff_apply := Idle;
                             Core.expire := Some (Unregister "burn") |})
         (fun r =>
            Core.bind (Core.apply_effect run_hook r) (fun _ =>
            Core.bind
              (Core.new_Effect {| Core.eff_name := "chill"; Core.duration := 1;
                                  Core.eff_apply := Idle; Core.expire := None |})
              (Core.apply_effect run_hook)))
         (Core.World (Core.new_Story (VDict ∅) ∅ None None) ∅ [])).

(** A story with a sword in hand, an achievement, a flag and seven hit
    points, standing in the cave. *)
Definition armed : Core.world Script.op :=
  snd (Core.bind (Core.story_add_item "Right hand" "Sword" "Sharp" (Core.Equip (Script.Heal 1)))
         (fun _ =>
            Core.bind (Core.story_add_achievement "First Steps" "Left the village") (fun _ =>
            Core.bind (Core.set_flag "door_open" true) (fun _ =>
            Core.story_modify_hp (-3))))
         (Script.start (Script.forest None) ["cave"])).

(** * Hit points *)

Lemma tui_modify_hp_agrees (d : Z) (h : Z) :
  Tui._hp (Tui.modify_hp d {| Tui._hp := h |}) = Core._hp (Core.modify_hp d {| Core._hp := h |}).
Proof.
  unfold Tui.modify_hp, Core.modify_hp; simpl.
  destruct (Z.ltb_spec (h + d) 0); lia.
Qed.

Lemma tui_hp_after_agrees (ds : list Z) : forall h : Z,
  Tui._hp (tui_hp_after {| Tui._hp := h |} ds) = Core._hp (hp_after {| Core._hp := h |} ds).
Proof.
  induction ds as [|d ds IH]; intros h; [reflexivity|].
  unfold tui_hp_after, hp_after in *; simpl.
  pose proof (tui_modify_hp_agrees d h) as E.
  destruct (Tui.modify_hp d {| Tui._hp := h |}) as [a].
  destruct (Core.modify_hp d {| Core._hp := h |}) as [b].
  simpl in E; subst b. apply IH.
Qed.

Lemma best_suffix_nonneg (ds : list Z) : 0 <= best_suffix ds.
Proof. induction ds; simpl; lia. Qed.

Lemma hp_after_closed_form (ds : list Z) : forall (h d : Z),
  Core.get_hp (hp_after {| Core._hp := h |} (d :: ds))
  = Z.max (h + total (d :: ds)) (best_suffix ds).
Proof.
  induction ds as [|d' ds IH]; intros h d.
  - simpl. unfold Core.get_hp; simpl. lia.
  - change (hp_after {| Core._hp := h |} (d :: d' :: ds))
      with (hp_after {| Core._hp := Z.max 0 (h + d) |} (d' :: ds)).
    rewrite IH. simpl. lia.
Qed.

Lemma hp_after_nonneg (ds : list Z) (h d : Z) :
  0 <= Core.get_hp (hp_after {| Core._hp := h |} (d :: ds)).
Proof. rewrite hp_after_closed_form. pose proof (best_suffix_nonneg ds). lia. Qed.

(** C4, as the source has it: each call clamps the running value at
    zero, so after a non-empty sequence the hit points are the larger of
    the initial value plus all the changes and the best sum of a suffix
    of the changes; after every call of the sequence they are
    non-negative, and both implementations agree. *)
Theorem modify_hp_sequence (h d : Z) (ds : list Z) :
  Core.get_hp (hp_after {| Core._hp := h |} (d :: ds))
    = Z.max (h + total (d :: ds)) (best_suffix ds)
  /\ (forall n : nat,
        0 <= Core.get_hp (hp_after {| Core._hp := h |} (take (S n) (d :: ds))))
  /\ Tui.get_hp (tui_hp_after {| Tui._hp := h |} (d :: ds))
       = Core.get_hp (hp_after {| Core._hp := h |} (d :: ds)).
Proof.
  split; [apply hp_after_closed_form|split].
  - intros n. simpl take. apply hp_after_nonneg.
  - apply tui_hp_after_agrees.
Qed.

(** C4 as stated fails: from 0, the changes -5 then +3 leave 3 hit
    points, not max(0, -5 + 3) = 0. *)
Lemma modify_hp_sequence_not_clamped_sum :
  Core.get_hp (hp_after {| Core._hp := 0 |} [-5; 3]) = 3
  /\ Core.get_hp (hp_after {| Core._hp := 0 |} [-5; 3]) <> Z.max 0 (total [-5; 3]).
Proof. split; [reflexivity|]. vm_compute. discriminate. Qed.

(** * Inventory slots *)

Section InventoryFacts.
Context {Fn : Type}.

Lemma new_inventory_keys : dom (Core._items (@Core.new_Inventory Fn)) = slot_set.
Proof.
  unfold Core.new_Inventory, slot_set. cbn [Core._items].
  rewrite dom_list_to_map_L, <- list_fmap_compose.
  reflexivity.
Qed.

Lemma tui_new_inventory_keys : dom (Tui._items (@Tui.new_Inventory Fn)) = slot_set.
Proof.
  unfold Tui.new_Inventory, slot_set, Core.slots. cbn [Tui._items].
  rewrite !dom_insert_L. simpl. set_solver.
Qed.

Lemma do_call_keys (inv : Core.Inventory Fn) (c : inventory_call Fn) :
  dom (Core._items (do_call inv c)) = {[ call_slot c ]} ∪ dom (Core._items inv).
Proof. destruct c; simpl; apply dom_insert_L. Qed.

Lemma tui_do_call_keys (inv : Tui.Inventory Fn) (c : inventory_call Fn) :
  dom (Tui._items (tui_do_call inv c)) = {[ call_slot c ]} ∪ dom (Tui._items inv).
Proof. destruct c; simpl; apply dom_insert_L. Qed.

Lemma calls_keys (cs : list (inventory_call Fn)) : forall inv : Core.Inventory Fn,
  dom (Core._items (fold_left do_call cs inv))
  = dom (Core._items inv) ∪ list_to_set (call_slot <$> cs).
Proof.
  induction cs as [|c cs IH]; intros inv; simpl.
  - set_solver.
  - rewrite IH, do_call_keys. set_solver.
Qed.

Lemma tui_calls_keys (cs : list (inventory_call Fn)) : forall inv : Tui.Inventory Fn,
  dom (Tui._items (fold_left tui_do_call cs inv))
  = dom (Tui._items inv) ∪ list_to_set (call_slot <$> cs).
Proof.
  induction cs as [|c cs IH]; intros inv; simpl.
  - set_solver.
  - rewrite IH, tui_do_call_keys. set_solver.
Qed.

(** C9, as the source has it: [add_item] and [remove_item] assign to
    [_items[slot]] for whatever slot they are given, so the keys after a
    sequence of calls are the eleven names of the constructor together
    with every slot name the calls were given.  No key is ever removed,
    and the keys are exactly the eleven names when (and only when) every
    call names one of them.  Both implementations behave so. *)
Theorem inventory_keys (cs : list (inventory_call Fn)) :
  dom (Core._items (fold_left do_call cs Core.new_Inventory))
    = slot_set ∪ list_to_set (call_slot <$> cs)
  /\ dom (Tui._items (fold_left tui_do_call cs Tui.new_Inventory))
    = slot_set ∪ list_to_set (call_slot <$> cs)
  /\ (dom (Core._items (fold_left do_call cs Core.new_Inventory)) = slot_set
      <-> Forall (fun c => call_slot c ∈ Core.slots) cs)
  /\ size slot_set = 11%nat.
Proof.
  pose proof (calls_keys cs Core.new_Inventory) as HC.
  rewrite new_inventory_keys in HC.
  pose proof (tui_calls_keys cs Tui.new_Inventory) as HT.
  rewrite tui_new_inventory_keys in HT.
  split; [exact HC|split; [exact HT|split]].
  - rewrite HC, Forall_forall. split.
    + intros E c Hc.
      assert (call_slot c ∈ slot_set ∪ list_to_set (call_slot <$> cs)) as Hin.
      { apply elem_of_union_r, elem_of_list_to_set, list_elem_of_fmap. eauto. }
      rewrite E in Hin. unfold slot_set in Hin.
      by apply elem_of_list_to_set in Hin.
    + intros H. apply set_eq. intros x. rewrite elem_of_union.
      split; [|tauto]. intros [Hx|Hx]; [done|].
      apply elem_of_list_to_set, list_elem_of_fmap in Hx as (c & -> & Hc).
      unfold slot_set. apply elem_of_list_to_set. auto.
  - reflexivity.
Qed.

End InventoryFacts.

(** C9 as stated fails: equipping a slot the constructor did not create
    adds its name to the keys. *)
Lemma inventory_keys_grow :
  dom (Core._items (Core.add_item "Tail" "Ribbon" "A red ribbon" (@Core.LambdaNone unit)
                      Core.new_Inventory))
  <> list_to_set Core.slots.
Proof.
  intros E.
  assert ("Tail" ∈ (list_to_set Core.slots : gset string)) as H.
  { rewrite <- E. simpl. rewrite dom_insert_L. set_solver. }
  apply elem_of_list_to_set in H. unfold Core.slots in H.
  repeat (apply elem_of_cons in H as [H|H]; [discriminate|]).
  by apply elem_of_nil in H.
Qed.

(** * Path traversal and [step] *)

Section StepFacts.
Context {Fn : Type} (call : Fn -> Core.Story Fn -> Core.Story Fn).

Lemma walk_app (pre post : list string) : forall node : value Fn,
  walk node (pre ++ post) =
  match walk node pre with
  | Ok n => walk n post
  | Raise e => Raise e
  end.
Proof.
  induction pre as [|p pre IH]; intros node; simpl; [reflexivity|].
  destruct (py_getitem p node); [apply IH|reflexivity].
Qed.

(** A segment absent from the mapping reached so far is a [KeyError]. *)
Lemma walk_absent (db : value Fn) (pre post : list string) (seg : string)
    (d : gmap string (value Fn)) :
  walk db pre = Ok (VDict d) -> d !! seg = None ->
  walk db (pre ++ seg :: post) = Raise KeyError.
Proof.
  intros Hpre Hseg. rewrite walk_app, Hpre. simpl. by rewrite Hseg.
Qed.

Lemma get_node_found (w : Core.world Fn) (node : value Fn) :
  walk (Core._database (Core.story w)) (Core.path (Core.story w)) = Ok node ->
  Core._get_node w
  = (Ok node, Core.World (visited node (Core.story w)) (Core.files w) (Core.trace w)).
Proof.
  intros H. unfold Core._get_node, Core.bind, Core.get_story. simpl. by rewrite H.
Qed.

Lemma get_node_missing (w : Core.world Fn) :
  walk (Core._database (Core.story w)) (Core.path (Core.story w)) = Raise KeyError ->
  Core._get_node w = (Ok (VDict ∅), w).
Proof.
  intros H. unfold Core._get_node, Core.bind, Core.get_story. simpl. by rewrite H.
Qed.

(** C2, as the source has it: when a segment of the path is absent from
    the mapping reached by the segments before it, [step] returns the
    error result, raises nothing, and leaves the whole world, path
    cursor included, as it was. *)
Theorem step_unresolved (w : Core.world Fn) (answer : option string)
    (pre post : list string) (seg : string) (d : gmap string (value Fn)) :
  Core.path (Core.story w) = (pre ++ seg :: post) ->
  walk (Core._database (Core.story w)) pre = Ok (VDict d) ->
  d !! seg = None ->
  exists v,
    Core.step call answer w = (Ok v, w) /\ is_error v = true.
Proof.
  intros Hpath Hpre Hseg.
  exists (Core.error_result "Неверный путь."). split; [|reflexivity].
  unfold Core.step, Core.bind.
  rewrite get_node_missing; [reflexivity|].
  rewrite Hpath. by eapply walk_absent.
Qed.

End StepFacts.

(** In the forest story the path [start, lake] names a segment the
    [start] node does not have. *)
Lemma step_unresolved_witness :
  exists v,
    Core.step Script.run (Some "go north") (Script.start (Script.forest None) ["start"; "lake"])
    = (Ok v, Script.start (Script.forest None) ["start"; "lake"])
    /\ is_error v = true.
Proof.
  apply (step_unresolved Script.run (Script.start (Script.forest None) ["start"; "lake"])
           (Some "go north") ["start"] [] "lake" (Script.forest_node None));
    vm_compute; reflexivity.
Defined.

(** The scenario of the specification: from [start], "go north" leads to
    the cave and "go south" is refused with the cursor still on [start]. *)
Example forest_scenario :
  let w := Script.start (Script.forest None) ["start"] in
  (fst (Core.step Script.run (Some "go north") w) = Ok (VDict Script.cave)
   /\ Core.path (Core.story (snd (Core.step Script.run (Some "go north") w))) = ["cave"])
  /\ (fst (Core.step Script.run (Some "go south") w)
      = Ok (Core.error_result "Неверный выбор.")
      /\ Core.path (Core.story (snd (Core.step Script.run (Some "go south") w))) = ["start"]).
Proof. vm_compute. repeat split. Qed.

(** C2 as stated fails: resolving [start, condition, x] fails, for the
    text under [condition] is no mapping, and the handler of [_get_node]
    is for [KeyError] only; the [TypeError] leaves [step], with or
    without an answer. *)
Lemma step_unresolved_raises :
  let w := Script.start (Script.forest None) ["start"; "condition"; "x"] in
  walk (Core._database (Core.story w)) (Core.path (Core.story w)) = Raise TypeError
  /\ Core.step Script.run None w = (Raise TypeError, w)
  /\ Core.step Script.run (Some "go north") w = (Raise TypeError, w).
Proof. vm_compute. repeat split. Qed.

(** The same on a single call. *)
Example step_into_text_raises :
  let w := Script.start (Script.forest None) ["start"; "condition"; "x"] in
  Core.step Script.run None w = (Raise TypeError, w).
Proof. vm_compute. reflexivity. Qed.

Section InvalidChoice.
Context {Fn : Type} (call : Fn -> Core.Story Fn -> Core.Story Fn).

Lemma run_function_entry (d : gmap string (value Fn)) (w : Core.world Fn) :
  Core.run_function call Core.Entry (VDict d) w = (Ok tt, after_entry call d w).
Proof.
  unfold Core.run_function, Core.bind, Core.lift, after_entry, entry_function.
  simpl. destruct (d !! "function") as [v|]; simpl; [|reflexivity].
  destruct (callable v); reflexivity.
Qed.

(** What [step] does with an answer the node does not offer. *)
Lemma step_invalid (w : Core.world Fn) (answer : string)
    (d a : gmap string (value Fn)) :
  walk (Core._database (Core.story w)) (Core.path (Core.story w)) = Ok (VDict d) ->
  default (VDict ∅) (d !! "answers") = VDict a ->
  a !! answer = None ->
  let w1 := Core.World (visited (VDict d) (Core.story w)) (Core.files w) (Core.trace w) in
  Core.step call (Some answer) w =
  if truthy (VDict d)
  then (Ok (Core.error_result "Неверный выбор."), after_entry call d w1)
  else (Ok (Core.error_result "Неверный путь."), w1).
Proof.
  intros Hwalk Hans Hkey w1.
  unfold Core.step. unfold Core.bind at 1. rewrite (get_node_found _ _ Hwalk).
  fold w1. destruct (truthy (VDict d)); simpl; [|reflexivity].
  unfold Core.bind at 1. rewrite run_function_entry.
  unfold Core.bind, Core.lift. simpl. rewrite Hans. simpl. rewrite Hkey.
  reflexivity.
Qed.

(** C1, as the source has it: the node's entry function runs before the
    answer is looked up, and it is handed the story, cursor included.
    [step] returns an error result, and the cursor is unchanged as long
    as that entry function, if the node has one, leaves it alone. *)
Theorem step_invalid_choice (w : Core.world Fn) (answer : string)
    (d a : gmap string (value Fn)) :
  walk (Core._database (Core.story w)) (Core.path (Core.story w)) = Ok (VDict d) ->
  default (VDict ∅) (d !! "answers") = VDict a ->
  a !! answer = None ->
  (forall f s, entry_function d = Some f -> Core.path (call f s) = Core.path s) ->
  exists v w',
    Core.step call (Some answer) w = (Ok v, w')
    /\ is_error v = true
    /\ Core.path (Core.story w') = Core.path (Core.story w).
Proof.
  intros Hwalk Hans Hkey Hkeep.
  pose proof (step_invalid w answer d a Hwalk Hans Hkey) as E. cbv zeta in E.
  rewrite E.
  destruct (truthy (VDict d)); eexists _, _; (split; [reflexivity|]);
    (split; [reflexivity|]).
  - unfold after_entry. destruct (entry_function d) as [f|] eqn:Ef; simpl; [|reflexivity].
    by rewrite (Hkeep f _ eq_refl).
  - reflexivity.
Qed.

(** C10, as the source has it: on the invalid-choice path the entry
    function of the node has been invoked, once, and the story returned
    with the error is the one that function produced from the story in
    which the visit was recorded; [step] itself does not assign the
    cursor there, so the cursor is where the entry function left it. *)
Theorem step_invalid_choice_runs_entry (w : Core.world Fn) (answer : string)
    (d a : gmap string (value Fn)) (f : Fn) :
  walk (Core._database (Core.story w)) (Core.path (Core.story w)) = Ok (VDict d) ->
  default (VDict ∅) (d !! "answers") = VDict a ->
  a !! answer = None ->
  entry_function d = Some f ->
  let s' := call f (visited (VDict d) (Core.story w)) in
  Core.step call (Some answer) w
  = (Ok (Core.error_result "Неверный выбор."),
     Core.World s' (Core.files w) (Core.trace w ++ [Core.Entry f]))
  /\ Core.path (Core.story (snd (Core.step call (Some answer) w))) = Core.path s'.
Proof.
  intros Hwalk Hans Hkey Hf s'.
  pose proof (step_invalid w answer d a Hwalk Hans Hkey) as E. cbv zeta in E.
  assert (truthy (VDict d) = true) as Ht.
  { simpl. apply negb_true_iff, bool_decide_eq_false. intros Hd.
    apply dom_empty_inv_L in Hd. subst d. discriminate Hf. }
  rewrite Ht in E. unfold after_entry in E. rewrite Hf in E. simpl in E.
  rewrite E. split; reflexivity.
Qed.

End InvalidChoice.

(** The forest story whose [start] node costs three hit points on entry:
    the invalid answer "go south" is refused and the cursor stays. *)
Lemma step_invalid_choice_witness :
  exists v w',
    Core.step Script.run (Some "go south")
      (Script.start (Script.forest (Some (Script.Heal (-3)))) ["start"]) = (Ok v, w')
    /\ is_error v = true
    /\ Core.path (Core.story w')
       = Core.path (Core.story (Script.start (Script.forest (Some (Script.Heal (-3)))) ["start"])).
Proof.
  apply (step_invalid_choice Script.run
           (Script.start (Script.forest (Some (Script.Heal (-3)))) ["start"])
           "go south"
           (Script.forest_node (Some (Script.Heal (-3))))
           {[ "go north" := VDict {[ "next_path" := VList [VStr "cave"] ]} ]}).
  - vm_compute; reflexivity.
  - vm_compute; reflexivity.
  - vm_compute; reflexivity.
  - intros f s Hf. vm_compute in Hf. injection Hf as <-. reflexivity.
Defined.

(** C1 as stated fails: when the entry function of [start] jumps to the
    cave, the refused answer "go south" still leaves the cursor there. *)
Lemma step_invalid_choice_moves_cursor :
  exists v w',
    Core.step Script.run (Some "go south")
      (Script.start (Script.forest (Some (Script.JumpTo ["cave"]))) ["start"]) = (Ok v, w')
    /\ is_error v = true
    /\ Core.path (Core.story w') = ["cave"]
    /\ Core.path (Core.story w')
       <> Core.path (Core.story (Script.start (Script.forest (Some (Script.JumpTo ["cave"]))) ["start"])).
Proof.
  eexists _, _. split; [vm_compute; reflexivity|].
  split; [reflexivity|]. split; [reflexivity|]. vm_compute. discriminate.
Qed.

(** On the refused answer the three hit points are gone all the same. *)
Lemma step_invalid_choice_runs_entry_witness :
  let w := Script.start (Script.forest (Some (Script.Heal (-3)))) ["start"] in
  let s' := Script.run (Script.Heal (-3))
              (visited (VDict (Script.forest_node (Some (Script.Heal (-3))))) (Core.story w)) in
  (Core.step Script.run (Some "go south") w
   = (Ok (Core.error_result "Неверный выбор."),
      Core.World s' (Core.files w) (Core.trace w ++ [Core.Entry (Script.Heal (-3))]))
   /\ Core.path (Core.story (snd (Core.step Script.run (Some "go south") w))) = Core.path s')
  /\ Core.story_get_hp s' = 7.
Proof.
  split; [|reflexivity].
  apply (step_invalid_choice_runs_entry Script.run
           (Script.start (Script.forest (Some (Script.Heal (-3)))) ["start"])
           "go south"
           (Script.forest_node (Some (Script.Heal (-3))))
           {[ "go north" := VDict {[ "next_path" := VList [VStr "cave"] ]} ]}
           (Script.Heal (-3)));
    vm_compute; reflexivity.
Defined.

(** C10 as stated fails in its last clause: an entry function that sends
    the story elsewhere has done so when the error comes back. *)
Lemma step_invalid_choice_cursor_not_kept :
  let w := Script.start (Script.forest (Some (Script.JumpTo ["start"; "answers"]))) ["start"] in
  fst (Core.step Script.run (Some "go west") w) = Ok (Core.error_result "Неверный выбор.")
  /\ Core.trace (snd (Core.step Script.run (Some "go west") w))
     = [Core.Entry (Script.JumpTo ["start"; "answers"])]
  /\ Core.path (Core.story (snd (Core.step Script.run (Some "go west") w)))
     <> Core.path (Core.story w).
Proof.
  split; [vm_compute; reflexivity|]. split; [vm_compute; reflexivity|].
  vm_compute. discriminate.
Qed.

(** * Puzzles *)

Section PuzzleFacts.
Context {Fn : Type} (call : Fn -> Core.Story Fn -> Core.Story Fn).

Lemma run_optional_spec (role : Fn -> Core.event Fn) (f : option Fn) (w : Core.world Fn) :
  Core.run_optional call role f w
  = (Ok tt, Core.World (optional_call call f (Core.story w)) (Core.files w)
              (Core.trace w ++ optional_event role f)).
Proof.
  destruct f as [f|]; simpl; [reflexivity|].
  unfold Core.ret. rewrite app_nil_r. by destruct w.
Qed.

Lemma log_spec (m : Core.message Fn) (style : option Core.MessageType) (w : Core.world Fn) :
  Core.log m style w
  = (Ok tt, Core.World (logged m style (Core.story w)) (Core.files w) (Core.trace w)).
Proof. reflexivity. Qed.

Lemma attempt_spec (p : Core.Puzzle Fn) (i : Z) (w : Core.world Fn) :
  Core.attempt call p i w =
  if i =? Core.answer_index p
  then (Ok true,
        Core.World
          (logged (Core.Text (String.append "Puzzle solved: " (Core.question p))) (Some Core.INFO)
             (optional_call call (Core.on_success p) (Core.story w)))
          (Core.files w)
          (Core.trace w ++ optional_event Core.Succeeded (Core.on_success p)))
  else (Ok false,
        Core.World
          (logged (Core.Text (String.append "Puzzle failed: " (Core.question p))) (Some Core.INFO)
             (optional_call call (Core.on_fail p) (Core.story w)))
          (Core.files w)
          (Core.trace w ++ optional_event Core.Failed (Core.on_fail p))).
Proof.
  unfold Core.attempt.
  destruct (i =? Core.answer_index p); unfold Core.bind;
    rewrite run_optional_spec; reflexivity.
Qed.

Lemma attempts_results (p : Core.Puzzle Fn) (indices : list Z) : forall w : Core.world Fn,
  fst (attempts call p indices w) = Ok ((fun i => i =? Core.answer_index p) <$> indices).
Proof.
  induction indices as [|i rest IH]; intros w; [reflexivity|].
  simpl. unfold Core.bind at 1. rewrite attempt_spec.
  destruct (i =? Core.answer_index p); unfold Core.bind;
    match goal with |- context [attempts call p rest ?w'] =>
      specialize (IH w'); destruct (attempts call p rest w') as [[bs|e] w'']
    end; simpl in IH; try discriminate; injection IH as ->; reflexivity.
Qed.

(** C8: [attempt] returns whether the index is the stored one; on a
    match it invokes [on_success] (when there is one) exactly once and
    nothing else, on a mismatch [on_fail] likewise, and logs the outcome;
    it takes the puzzle as it is and hands none back, so any sequence of
    attempts on a puzzle gives, attempt by attempt, the comparison of
    its index with the stored one. *)
Theorem attempt_outcome (p : Core.Puzzle Fn) (i : Z) (w : Core.world Fn) :
  Core.attempt call p i w =
  (if i =? Core.answer_index p
   then (Ok true,
         Core.World
           (logged (Core.Text (String.append "Puzzle solved: " (Core.question p))) (Some Core.INFO)
              (optional_call call (Core.on_success p) (Core.story w)))
           (Core.files w)
           (Core.trace w ++ optional_event Core.Succeeded (Core.on_success p)))
   else (Ok false,
         Core.World
           (logged (Core.Text (String.append "Puzzle failed: " (Core.question p))) (Some Core.INFO)
              (optional_call call (Core.on_fail p) (Core.story w)))
           (Core.files w)
           (Core.trace w ++ optional_event Core.Failed (Core.on_fail p))))
  /\ (forall indices : list Z,
        fst (attempts call p indices w)
        = Ok ((fun i => i =? Core.answer_index p) <$> indices)).
Proof.
  split; [apply attempt_spec|]. intros indices. apply attempts_results.
Qed.

End PuzzleFacts.

(** A puzzle whose answer is option 1, tried with 1, 0, 1, 0: solved,
    failed, solved, failed, each callback run when its turn came. *)
Example attempts_alternate :
  let p := {| Core.question := "Which door?"; Core.options := ["left"; "right"];
              Core.answer_index := 1;
              Core.on_success := Some (Script.Heal 1);
              Core.on_fail := Some (Script.Heal (-1)) |} in
  let r := attempts Script.run p [1; 0; 1; 0] (Script.start (Script.forest None) []) in
  fst r = Ok [true; false; true; false]
  /\ Core.trace (snd r)
     = [Core.Succeeded (Script.Heal 1); Core.Failed (Script.Heal (-1));
        Core.Succeeded (Script.Heal 1); Core.Failed (Script.Heal (-1))].
Proof. split; vm_compute; reflexivity. Qed.

(** * NPC dialogue *)

Section NpcFacts.
Context {Fn : Type} (call : Fn -> Core.Story Fn -> Core.Story Fn).

(** Whatever the choice, an NPC whose cursor names a segment its tree
    lacks makes [talk] raise: [NPC._get_node] has no handler. *)
Lemma talk_unresolved (n : Core.NPC Fn) (choice : option string) (w : Core.world Fn)
    (pre post : list string) (seg : string) (d : gmap string (value Fn)) :
  Core.dialogue_path n = (pre ++ seg :: post) ->
  walk (Core.dialogue n) pre = Ok (VDict d) ->
  d !! seg = None ->
  Core.talk n choice w = (Raise KeyError, n, w).
Proof.
  intros Hpath Hpre Hseg. unfold Core.talk, Core.npc_get_node.
  rewrite Hpath, (walk_absent _ _ _ _ _ Hpre Hseg). reflexivity.
Qed.

End NpcFacts.

(** C6 fails on the code: answering "follow" to the guard sets the
    guard's cursor to [camp], which the tree lacks; the re-resolution
    raises [KeyError] out of [talk], no error result is returned, and
    every later [talk] raises at once. *)
Theorem npc_talk_raises :
  let w := Script.start (Script.forest None) [] in
  let '(r, n', w') := Core.talk guard (Some "follow") w in
  r = Raise KeyError
  /\ Core.dialogue_path n' = ["camp"]
  /\ fst (fst (Core.talk n' None w')) = Raise KeyError
  /\ fst (Core.talk_to "Guard" (Some "follow") (snd (Core.register_npc guard w)))
     = Raise KeyError.
Proof. vm_compute. repeat split. Qed.

(** * Save and load *)

Section SaveLoadFacts.
Context {Fn : Type}.

(** Assigning the pairs of a list with distinct keys, one after the
    other, into a map. *)
Lemma foldl_insert_lookup {A B} (f : A -> B) (l : list (string * A)) :
  NoDup l.*1 ->
  forall (m0 : gmap string B) (k : string),
    foldl (fun m '(k, v) => <[k := f v]> m) m0 l !! k
    = match (list_to_map l : gmap string A) !! k with
      | Some v => Some (f v)
      | None => m0 !! k
      end.
Proof.
  induction l as [|[k0 v0] l IH]; intros Hnd m0 k; [done|].
  apply NoDup_cons in Hnd as [Hk0 Hnd]. simpl.
  rewrite (IH Hnd). destruct (decide (k = k0)) as [->|Hne].
  - rewrite lookup_insert_eq, (not_elem_of_list_to_map_1 _ _ Hk0).
    by rewrite lookup_insert_eq.
  - rewrite (lookup_insert_ne (list_to_map l)) by done.
    destruct (list_to_map l !! k); [done|]. by rewrite lookup_insert_ne.
Qed.

Lemma foldl_insert_map_to_list {A B} (f : A -> B) (m : gmap string A)
    (m0 : gmap string B) (k : string) :
  foldl (fun m '(k, v) => <[k := f v]> m) m0 (map_to_list m) !! k
  = match m !! k with
    | Some v => Some (f v)
    | None => m0 !! k
    end.
Proof.
  rewrite foldl_insert_lookup by apply NoDup_fst_map_to_list.
  by rewrite list_to_map_to_list.
Qed.

Lemma load_achievements_encoded (l : list (string * string)) : forall w : Core.world Fn,
  Core.load_achievements ((fun '(k, d) => (k, JStr d)) <$> l) w
  = (Ok tt,
     Core.World
       (Core.set_achievements
          {| Core._achievements :=
               foldl (fun m '(k, d) => <[k := d]> m)
                 (Core._achievements (Core._achievements_of (Core.story w))) l |}
          (Core.story w))
       (Core.files w) (Core.trace w)).
Proof.
  induction l as [|[k d] l IH]; intros w.
  - destruct w as [[] ? ?]. simpl. by destruct _achievements_of.
  - simpl. unfold Core.bind at 1. simpl. unfold Core.bind at 1. simpl.
    rewrite IH. reflexivity.
Qed.

Lemma load_inventory_encoded (l : list (string * Core.item Fn)) : forall w : Core.world Fn,
  Core.load_inventory
    ((fun '(slot, it) => (slot, JList [JStr (Core.item_name it); JStr (Core.item_description it)]))
       <$> l) w
  = (Ok tt,
     Core.World
       (Core.set_inventory
          {| Core._items :=
               foldl (fun m '(slot, it) =>
                        <[slot := Some (Core.Item (Core.item_name it) (Core.item_description it)
                                          Core.LambdaNone)]> m)
                 (Core._items (Core._inventory (Core.story w))) l |}
          (Core.story w))
       (Core.files w) (Core.trace w)).
Proof.
  induction l as [|[k it] l IH]; intros w.
  - destruct w as [[] ? ?]. simpl. by destruct _inventory.
  - simpl. unfold Core.bind, Core.lift. simpl. rewrite IH. reflexivity.
Qed.

Lemma json_flags_encoded (l : list (string * bool)) :
  Core.json_flags ((fun '(k, b) => (k, JBool b)) <$> l) = Ok (list_to_map l).
Proof.
  induction l as [|[k b] l IH]; [reflexivity|].
  rewrite fmap_cons. cbn [Core.json_flags Core.json_bool result_bind].
  by rewrite IH.
Qed.

Lemma json_strings_encoded (p : list string) :
  Core.json_strings (JStr <$> p) = Ok p.
Proof.
  induction p as [|x p IH]; [reflexivity|].
  rewrite fmap_cons. cbn [Core.json_strings Core.json_str result_bind].
  by rewrite IH.
Qed.

End SaveLoadFacts.

Section RoundTrip.
Context {Fn : Type}.

Lemma open_read_saved (filename : string) (j : json) (s : Core.Story Fn)
    (fs : gmap string content) (tr : list (Core.event Fn)) :
  Core.open_read filename (Core.World s (<[filename := Parsed j]> fs) tr)
  = (Ok j, Core.World s (<[filename := Parsed j]> fs) tr).
Proof. unfold Core.open_read. simpl. by rewrite lookup_insert_eq. Qed.

(** The story that [load_state] builds, from the story it is called
    on, out of a file that holds the state of the story [s]. *)
Lemma load_saved (filename : string) (s s0 : Core.Story Fn)
    (fs : gmap string content) (tr : list (Core.event Fn)) :
  Core.load_state filename
    (Core.World s0 (<[filename := Parsed (Core.encode_state s)]> fs) tr)
  = (Ok tt,
     Core.World
       (Core.set_path (Core.path s)
          (Core.set_flags (list_to_map (map_to_list (Core._flags s)))
             (Core.set_inventory
                {| Core._items :=
                     foldl (fun m '(slot, it) =>
                              <[slot := Some (Core.Item (Core.item_name it)
                                                (Core.item_description it) Core.LambdaNone)]> m)
                       (Core._items Core.new_Inventory)
                       (map_to_list (Core.get_items (Core._inventory s))) |}
                (Core.set_achievements
                   {| Core._achievements :=
                        foldl (fun m '(k, d) => <[k := d]> m) ∅
                          (map_to_list (Core.get_achievements (Core._achievements_of s))) |}
                   (Core.set_health {| Core._hp := Core.get_hp (Core._health s) |} s0)))))
       (<[filename := Parsed (Core.encode_state s)]> fs) tr).
Proof.
  unfold Core.load_state. unfold Core.bind at 1. rewrite open_read_saved.
  unfold Core.encode_state.
  unfold Core.bind at 1. unfold Core.lift at 1.
  cbn [Core.state_get jlookup String.eqb Ascii.eqb Bool.eqb default result_bind
       id Core.json_int Core.items].
  unfold Core.bind at 1, Core.modify at 1. cbn beta iota.
  unfold Core.bind at 1, Core.modify at 1. cbn beta iota.
  unfold Core.bind at 1, Core.lift at 1. cbn beta iota.
  unfold Core.bind at 1. rewrite load_achievements_encoded.
  unfold Core.bind at 1, Core.modify at 1. cbn beta iota.
  unfold Core.bind at 1, Core.lift at 1. cbn beta iota.
  unfold Core.bind at 1, Core.encode_items. rewrite load_inventory_encoded.
  rewrite json_flags_encoded, json_strings_encoded.
  unfold Core.bind at 1, Core.lift at 1. cbn beta iota.
  unfold Core.bind at 1, Core.modify at 1. cbn beta iota.
  unfold Core.bind at 1, Core.lift at 1. cbn beta iota.
  unfold Core.modify.
  reflexivity.
Qed.

(** A name that cannot be opened for writing: [save_state] raises and
    writes nothing. *)
Lemma save_state_unwritable (writable : string -> bool) (filename : string)
    (w : Core.world Fn) :
  writable filename = false ->
  Core.save_state writable filename w = (Raise OSError, w).
Proof. intros H. unfold Core.save_state. by rewrite H. Qed.

Lemma new_inventory_empty (slot : string) :
  Core.get_items (@Core.new_Inventory Fn) !! slot = None.
Proof.
  unfold Core.get_items, Core.new_Inventory. cbn [Core._items].
  rewrite lookup_omap.
  destruct (list_to_map _ !! slot) as [x|] eqn:E; [|reflexivity].
  apply elem_of_list_to_map_2, list_elem_of_fmap in E as (y & E & _).
  by injection E as _ ->.
Qed.

(** The occupied slots of the rebuilt inventory. *)
Lemma reloaded_items (inv : Core.Inventory Fn) (slot : string) :
  Core.get_items
    {| Core._items :=
         foldl (fun (m : gmap string (option (Core.item Fn))) '(slot, it) =>
                  <[slot := Some (Core.Item (Core.item_name it)
                                    (Core.item_description it) Core.LambdaNone)]> m)
           (Core._items Core.new_Inventory)
           (map_to_list (Core.get_items inv)) |} !! slot
  = (fun it : Core.item Fn =>
       Core.Item (Core.item_name it) (Core.item_description it) Core.LambdaNone)
      <$> Core.get_items inv !! slot.
Proof.
  unfold Core.get_items at 1. cbn [Core._items]. rewrite lookup_omap.
  etrans; [apply (f_equal (fun o => o ≫= id)),
             (foldl_insert_map_to_list
                (fun it : Core.item Fn =>
                   Some (Core.Item (Core.item_name it)
                           (Core.item_description it) Core.LambdaNone)))|].
  destruct (Core.get_items inv !! slot) as [it|]; [reflexivity|].
  pose proof (new_inventory_empty slot) as E.
  unfold Core.get_items in E. by rewrite lookup_omap in E.
Qed.

(** C3: when [save_state] can open the file, it returns normally and
    leaves the story as it was, and [load_state] of that file, called on
    any story whatever, returns normally and leaves that story with the
    hit points, achievements, flags and path of the story saved and with
    an item in exactly the slots that were occupied, under the name and
    description saved, each item carrying [lambda s: None]; the rest of
    the story it was called on stays. *)
Theorem save_load_roundtrip (writable : string -> bool) (filename : string)
    (w : Core.world Fn) (s0 : Core.Story Fn) (tr0 : list (Core.event Fn)) :
  writable filename = true ->
  let s := Core.story w in
  let saved := Core.save_state writable filename w in
  let r := Core.load_state filename (Core.World s0 (Core.files (snd saved)) tr0) in
  let s' := Core.story (snd r) in
  (fst saved = Ok tt /\ Core.story (snd saved) = s)
  /\ fst r = Ok tt
  /\ Core._hp (Core._health s') = Core._hp (Core._health s)
  /\ Core._achievements (Core._achievements_of s')
     = Core._achievements (Core._achievements_of s)
  /\ Core._flags s' = Core._flags s
  /\ Core.path s' = Core.path s
  /\ omap id (Core._items (Core._inventory s'))
     = (fun it : Core.item Fn =>
          Core.Item (Core.item_name it) (Core.item_description it) Core.LambdaNone)
         <$> omap id (Core._items (Core._inventory s))
  /\ Core.story_get_items s' = Core.story_get_items s
  /\ (Core._database s' = Core._database s0 /\ Core._log s' = Core._log s0
      /\ Core._messages s' = Core._messages s0 /\ Core.effects s' = Core.effects s0).
Proof.
  intros Hw. cbv zeta. unfold Core.save_state. rewrite Hw.
  cbn [fst snd Core.story Core.files].
  rewrite (load_saved filename (Core.story w) s0 (Core.files w) tr0).
  cbn [fst snd Core.story].
  split; [by split|]. split; [reflexivity|]. split; [reflexivity|].
  split.
  { cbn. apply map_eq. intros k.
    etrans; [apply (foldl_insert_map_to_list id)|].
    rewrite lookup_empty. unfold Core.get_achievements. by destruct (_ !! k). }
  split; [cbn; apply list_to_map_to_list|].
  split; [reflexivity|].
  assert (forall k,
            omap id (foldl (fun (m : gmap string (option (Core.item Fn))) '(slot, it) =>
                              <[slot := Some (Core.Item (Core.item_name it)
                                                (Core.item_description it) Core.LambdaNone)]> m)
                       (Core._items Core.new_Inventory)
                       (map_to_list (Core.get_items (Core._inventory (Core.story w))))) !! k
            = (fun it : Core.item Fn =>
                 Core.Item (Core.item_name it) (Core.item_description it) Core.LambdaNone)
                <$> omap id (Core._items (Core._inventory (Core.story w))) !! k) as Hitems.
  { intros k. exact (reloaded_items (Core._inventory (Core.story w)) k). }
  split; [|split; [|by repeat split]].
  - cbn [Core._inventory Core.set_path Core.set_flags Core.set_inventory Core._items].
    apply map_eq. intros k. by rewrite lookup_fmap, Hitems.
  - unfold Core.story_get_items, Core.get_items.
    cbn [Core._inventory Core.set_path Core.set_flags Core.set_inventory Core._items].
    apply map_eq. intros k. rewrite !lookup_fmap, Hitems.
    by destruct (omap id (Core._items (Core._inventory (Core.story w))) !! k).
Qed.

End RoundTrip.

(** The armed story, saved and loaded into a new story. *)
Lemma save_load_roundtrip_witness :
  let saved := Core.save_state (fun _ => true) "save.json" armed in
  let r := Core.load_state "save.json"
             (Core.World (Core.new_Story (VDict ∅ : value Script.op) ∅ None None) (Core.files (snd saved)) []) in
  fst r = Ok tt
  /\ Core.story_get_hp (Core.story (snd r)) = 7
  /\ Core.story_get_items (Core.story (snd r)) = {[ "Right hand" := ("Sword", "Sharp") ]}
  /\ Core.story_get_achievements (Core.story (snd r))
     = {[ "First Steps" := "Left the village" ]}
  /\ Core.get_flag "door_open" (Core.story (snd r)) = true
  /\ Core.path (Core.story (snd r)) = ["cave"].
Proof.
  destruct (save_load_roundtrip (fun _ => true) "save.json" armed
              (Core.new_Story (VDict ∅ : value Script.op) ∅ None None) [])
    as (_ & Hres & Hhp & Hach & Hfl & Hpath & _ & Hitems & _); [reflexivity|].
  cbv zeta. split; [exact Hres|]. split; [exact Hhp|]. split; [by rewrite Hitems|].
  split; [exact Hach|]. split; [|exact Hpath].
  unfold Core.get_flag. by rewrite Hfl.
Defined.

(** * Loading a state with keys missing, and load failures *)

Section LoadFacts.
Context {Fn : Type}.

Lemma load_inventory_pairs (l : list (string * (string * string))) : forall w : Core.world Fn,
  Core.load_inventory
    ((fun '(slot, (name, description)) => (slot, JList [JStr name; JStr description])) <$> l) w
  = (Ok tt,
     Core.World
       (Core.set_inventory
          {| Core._items :=
               foldl (fun m '(slot, (name, description)) =>
                        <[slot := Some (Core.Item name description Core.LambdaNone)]> m)
                 (Core._items (Core._inventory (Core.story w))) l |}
          (Core.story w))
       (Core.files w) (Core.trace w)).
Proof.
  induction l as [|[k [n d]] l IH]; intros w.
  - destruct w as [[] ? ?]. simpl. by destruct _inventory.
  - simpl. unfold Core.bind, Core.lift. simpl. rewrite IH. reflexivity.
Qed.

(** X18: [load_state] of [core.py] on a document in which each of the
    five keys is either missing or holds a field of the saved format
    returns normally and logs nothing; it leaves the story with the
    fields of the file where they are present and with 0 hit points, the
    eleven empty slots, no achievements, no flags and the empty path
    where they are missing, and with everything else as it was. *)
Lemma core_load_defaults (filename : string) (w : Core.world Fn)
    (d : list (string * json)) (hp : option Z)
    (inv : option (list (string * (string * string))))
    (ach : option (list (string * string)))
    (fl : option (list (string * bool))) (p : option (list string)) :
  Core.files w !! filename = Some (Parsed (JDict d)) ->
  jlookup "hp" d = JInt <$> hp ->
  jlookup "inventory" d = encode_inventory <$> inv ->
  jlookup "achievements" d = encode_achievements <$> ach ->
  jlookup "flags" d = encode_flags <$> fl ->
  jlookup "path" d = encode_path <$> p ->
  Core.load_state filename w
  = (Ok tt,
     Core.World
       (Core.set_path (default [] p)
          (Core.set_flags (list_to_map (default [] fl))
             (Core.set_inventory {| Core._items := rebuilt_items (default [] inv) |}
                (Core.set_achievements
                   {| Core._achievements := rebuilt_achievements (default [] ach) |}
                   (Core.set_health {| Core._hp := default 0 hp |} (Core.story w))))))
       (Core.files w) (Core.trace w)).
Proof.
  intros Hfile Hhp Hinv Hach Hfl Hp.
  unfold Core.load_state. unfold Core.bind at 1, Core.open_read. rewrite Hfile.
  unfold Core.bind at 1, Core.lift at 1, Core.state_get. rewrite Hhp.
  replace (result_bind (Ok (default (JInt 0) (JInt <$> hp))) Core.json_int)
    with (Ok (A:=Z) (default 0 hp)) by (by destruct hp).
  unfold Core.bind at 1, Core.modify at 1. cbn beta iota.
  unfold Core.bind at 1, Core.modify at 1. cbn beta iota.
  unfold Core.bind at 1, Core.lift at 1. rewrite Hach.
  replace (result_bind (Ok (default (JDict []) (encode_achievements <$> ach))) Core.items)
    with (Ok (A:=list (string * json)) ((fun '(k, d) => (k, JStr d)) <$> default [] ach))
    by (by destruct ach).
  cbn beta iota.
  unfold Core.bind at 1. rewrite load_achievements_encoded.
  unfold Core.bind at 1, Core.modify at 1. cbn beta iota.
  unfold Core.bind at 1, Core.lift at 1. rewrite Hinv.
  replace (result_bind (Ok (default (JDict []) (encode_inventory <$> inv))) Core.items)
    with (Ok (A:=list (string * json))
            ((fun '(slot, (name, description)) =>
                (slot, JList [JStr name; JStr description])) <$> default [] inv))
    by (by destruct inv).
  cbn beta iota.
  unfold Core.bind at 1. rewrite load_inventory_pairs.
  unfold Core.bind at 1, Core.lift at 1. rewrite Hfl.
  replace (result_bind (Ok (default (JDict []) (encode_flags <$> fl)))
             (fun v => match v with JDict d0 => Core.json_flags d0 | _ => Raise IllTyped end))
    with (Ok (A:=gmap string bool) (list_to_map (default [] fl)))
    by (destruct fl; simpl; [by rewrite json_flags_encoded|reflexivity]).
  cbn beta iota.
  unfold Core.bind at 1, Core.modify at 1. cbn beta iota.
  unfold Core.bind at 1, Core.lift at 1. rewrite Hp.
  replace (result_bind (Ok (default (JList []) (encode_path <$> p)))
             (fun v => match v with JList l => Core.json_strings l | _ => Raise IllTyped end))
    with (Ok (A:=list string) (default [] p))
    by (destruct p; simpl; [by rewrite json_strings_encoded|reflexivity]).
  cbn beta iota. unfold Core.modify.
  reflexivity.
Qed.


Lemma tui_load_achievements_encoded (l : list (string * string)) : forall s : Tui.Story Fn,
  Tui.load_achievements ((fun '(k, d) => (k, JStr d)) <$> l) s
  = (Ok tt, Tui.set_achievements (foldl (fun m '(k, d) => <[k := d]> m) (Tui._achievements s) l) s).
Proof.
  induction l as [|[k d] l IH]; intros s.
  - by destruct s.
  - simpl. rewrite IH. reflexivity.
Qed.

Lemma tui_load_inventory_encoded (l : list (string * (string * string))) : forall s : Tui.Story Fn,
  Tui.load_inventory
    ((fun '(slot, (name, description)) => (slot, JList [JStr name; JStr description])) <$> l) s
  = (Ok tt,
     Tui.set_inventory
       {| Tui._items :=
            foldl (fun m '(slot, (name, description)) =>
                     <[slot := Some (Core.Item name description Core.LambdaNone)]> m)
              (Tui._items (Tui._inventory s)) l |} s).
Proof.
  induction l as [|[k [n d]] l IH]; intros s.
  - destruct s. simpl. by destruct _inventory.
  - simpl. rewrite IH. reflexivity.
Qed.



(** On a document whose three keys are missing or hold fields of the
    saved format: all three present, the state is rebuilt; one missing,
    the [KeyError] is caught and printed, after the assignments made
    before it. *)
Lemma tui_load_document (filename : string) (fs : gmap string content) (s : Tui.Story Fn)
    (d : list (string * json)) (hp : option Z)
    (inv : option (list (string * (string * string))))
    (ach : option (list (string * string))) :
  jlookup "hp" d = JInt <$> hp ->
  jlookup "inventory" d = encode_inventory <$> inv ->
  jlookup "achievements" d = encode_achievements <$> ach ->
  Tui.load_state filename (<[filename := Parsed (JDict d)]> fs) s
  = match hp, ach, inv with
    | Some h, Some a, Some i =>
        (Ok tt,
         Tui.set_inventory {| Tui._items := tui_rebuilt_items i |}
           (Tui.set_achievements (rebuilt_achievements a)
              (Tui.set_health {| Tui._hp := h |} s)))
    | Some h, Some a, None =>
        (Ok tt,
         Tui.print (Tui.LoadError KeyError) (Some "bold red")
           (Tui.set_inventory Tui.new_Inventory
              (Tui.set_achievements (rebuilt_achievements a)
                 (Tui.set_health {| Tui._hp := h |} s))))
    | Some h, None, _ =>
        (Ok tt,
         Tui.print (Tui.LoadError KeyError) (Some "bold red")
           (Tui.set_achievements ∅ (Tui.set_health {| Tui._hp := h |} s)))
    | None, _, _ =>
        (Ok tt, Tui.print (Tui.LoadError KeyError) (Some "bold red") s)
    end.
Proof.
  intros Hhp Hinv Hach.
  unfold Tui.load_state, Tui.load_body. rewrite lookup_insert_eq.
  unfold Tui.state_item. rewrite Hhp, Hach, Hinv.
  destruct hp as [h|]; [|reflexivity]. cbn [fmap option_fmap option_map result_bind Core.json_int].
  destruct ach as [a|]; [|reflexivity].
  cbn [fmap option_fmap option_map result_bind Core.items encode_achievements].
  rewrite tui_load_achievements_encoded.
  destruct inv as [i|]; [|reflexivity].
  cbn [fmap option_fmap option_map result_bind Core.items encode_inventory].
  rewrite tui_load_inventory_encoded. reflexivity.
Qed.



End LoadFacts.

(** C7 fails on the code: [load_state] of [core.py] has no handler, so a
    missing file and a file that does not parse raise to the caller, and
    nothing is logged, where [load_state] of [story_engine.py] catches
    and prints them. *)
Lemma core_load_state_raises :
  let w := Script.start (Script.forest None) ["start"] in
  let w' := Core.World (Core.story w) {[ "save.json" := Malformed ]} [] in
  Core.load_state "save.json" w = (Raise FileNotFoundError, w)
  /\ Core.load_state "save.json" w' = (Raise JSONDecodeError, w')
  /\ Core._log (Core.story w) = [] /\ Core._messages (Core.story w) = [].
Proof. repeat split; vm_compute; reflexivity. Qed.

(** * Effect ageing *)

Section EffectFacts.
Context {Fn : Type} (call : Fn -> Core.Story Fn -> Core.Story Fn).

Lemma od_del_middle {V} (k : string) (v : V) (keep rest : list (string * V)) :
  k ∉ keep.*1 ->
  Core.od_del k (keep ++ (k, v) :: rest) = Some (keep ++ rest).
Proof.
  induction keep as [|[k' v'] keep IH]; intros Hk; simpl.
  - by rewrite String.eqb_refl.
  - apply not_elem_of_cons in Hk as [Hne Hk].
    destruct (String.eqb_spec k k') as [->|_]; [done|].
    by rewrite (IH Hk).
Qed.

(** The second loop removes exactly the entries selected by [P], given
    that their names are the ones collected. *)
Lemma forget_spec (P : string * nat -> bool) (d : list (string * nat)) :
  forall (keep : list (string * nat)) (s : Core.Story Fn)
         (fs : gmap string content) (tr : list (Core.event Fn)),
    NoDup (keep ++ d).*1 ->
    Core.effects s = keep ++ d ->
    Core.forget (List.filter P d).*1 (Core.World s fs tr)
    = (Ok tt, Core.World (Core.set_effects (keep ++ List.filter (fun x => negb (P x)) d) s) fs tr).
Proof.
  induction d as [|[k r] d IH]; intros keep s fs tr Hnd Heff.
  - simpl. destruct s; simpl in *. subst. reflexivity.
  - simpl. destruct (P (k, r)); simpl.
    + unfold Core.bind at 1, Core.get_story. cbn [Core.story]. rewrite Heff.
      rewrite od_del_middle.
      2:{ rewrite fmap_app, fmap_cons in Hnd. apply NoDup_app in Hnd as (_ & Hd & _).
          intros Hin. apply (Hd k Hin). simpl. left. }
      unfold Core.bind at 1, Core.modify. cbn beta iota. cbn [Core.story Core.files Core.trace].
      rewrite (IH keep).
      * reflexivity.
      * rewrite fmap_app, fmap_cons in Hnd. rewrite fmap_app.
        apply NoDup_app in Hnd as (H1 & H2 & H3). apply NoDup_cons in H3 as [_ H3].
        apply NoDup_app. split; [done|]. split; [|done].
        intros x Hx Hx'. apply (H2 x Hx). by right.
      * reflexivity.
    + rewrite (IH (keep ++ [(k, r)])).
      * by rewrite <- app_assoc.
      * by rewrite <- app_assoc.
      * by rewrite <- app_assoc.
Qed.


Lemma expires_insert_other (h : list (Core.Effect Fn)) (r : nat) (e' : Core.Effect Fn)
    (x : string * nat) :
  x.2 <> r -> expires (<[r := e']> h) x = expires h x.
Proof. intros Hne. unfold expires. by rewrite list_lookup_insert_ne. Qed.

Lemma filter_expires_insert (h : list (Core.Effect Fn)) (r : nat) (e' : Core.Effect Fn)
    (rest : list (string * nat)) :
  r ∉ rest.*2 ->
  List.filter (expires (<[r := e']> h)) rest = List.filter (expires h) rest.
Proof.
  induction rest as [|x rest IH]; intros Hr; [reflexivity|].
  rewrite fmap_cons in Hr. apply not_elem_of_cons in Hr as [Hne Hr].
  simpl. rewrite expires_insert_other by done. rewrite (IH Hr). reflexivity.
Qed.

Lemma expiry_events_insert (h : list (Core.Effect Fn)) (r : nat) (e' : Core.Effect Fn)
    (rest : list (string * nat)) :
  r ∉ rest.*2 ->
  expiry_events (<[r := e']> h) rest = expiry_events h rest.
Proof.
  induction rest as [|x rest IH]; intros Hr; [reflexivity|].
  rewrite fmap_cons in Hr. apply not_elem_of_cons in Hr as [Hne Hr].
  simpl. rewrite expires_insert_other by done.
  rewrite list_lookup_insert_ne by done. rewrite (IH Hr). reflexivity.
Qed.

(** The first loop: every object of the snapshot is decremented, the
    expiry callbacks of those that ran out are invoked in order, and the
    names of those are collected. *)
Lemma age_spec (snapshot : list (string * nat)) :
  forall (s : Core.Story Fn) (fs : gmap string content) (tr : list (Core.event Fn)),
    NoDup snapshot.*2 ->
    Forall (fun x => is_Some (Core.heap s !! x.2)) snapshot ->
    (forall r e f, Core.heap s !! r = Some e -> Core.expire e = Some f -> quiet call f) ->
    exists s',
      Core.age call snapshot (Core.World s fs tr)
      = (Ok (List.filter (expires (Core.heap s)) snapshot).*1,
         Core.World s' fs (tr ++ expiry_events (Core.heap s) snapshot))
      /\ Core.effects s' = Core.effects s
      /\ (forall r,
            Core.heap s' !! r
            = if bool_decide (r ∈ snapshot.*2)
              then Core.decrement <$> Core.heap s !! r
              else Core.heap s !! r).
Proof.
  induction snapshot as [|[name r] rest IH]; intros s fs tr Hnd Hsome Hquiet.
  - exists s. simpl. rewrite app_nil_r. by repeat split.
  - rewrite fmap_cons in Hnd. apply NoDup_cons in Hnd as [Hr Hnd].
    apply Forall_cons in Hsome as [[e He] Hsome]. simpl in He.
    set (h1 := <[r := Core.decrement e]> (Core.heap s)).
    set (s1 := Core.set_heap h1 s).
    set (gone := Core.duration (Core.decrement e) <=? 0).
    set (s2 := if gone then optional_call call (Core.expire e) s1 else s1).
    assert (Core.effects s2 = Core.effects s /\ Core.heap s2 = h1) as [Heff2 Hheap2].
    { unfold s2. destruct gone; [|done].
      destruct (Core.expire e) as [f|] eqn:Ef; [|done]. simpl.
      destruct (Hquiet r e f He Ef s1) as [-> ->]. done. }
    assert (r < length (Core.heap s))%nat as Hlt by (by eapply lookup_lt_Some).
    destruct (IH s2 fs (tr ++ if gone then optional_event Core.Expired (Core.expire e) else []))
      as (s' & Hage & Heff & Hheap).
    + done.
    + rewrite Hheap2. eapply Forall_impl; [exact Hsome|]. intros x [e' Hx]. simpl in *.
      unfold h1. destruct (decide (x.2 = r)) as [->|Hne].
      * rewrite list_lookup_insert_eq by done. eauto.
      * rewrite list_lookup_insert_ne by done. eauto.
    + rewrite Hheap2. intros r' e' f Hr' Hf. unfold h1 in Hr'.
      destruct (decide (r' = r)) as [->|Hne].
      * rewrite list_lookup_insert_eq in Hr' by done. injection Hr' as <-.
        apply (Hquiet r e f He Hf).
      * rewrite list_lookup_insert_ne in Hr' by done. apply (Hquiet r' e' f Hr' Hf).
    + rewrite Hheap2 in Hage, Hheap. unfold h1 in Hage.
      rewrite filter_expires_insert, expiry_events_insert in Hage by done.
      exists s'. split; [|split].
      * cbn [Core.age]. unfold Core.bind at 1, Core.deref, Core.bind at 1, Core.get_story.
        cbn [Core.story]. rewrite He. unfold Core.ret at 1.
        unfold Core.bind at 1, Core.modify at 1. cbn beta iota. cbn [Core.story Core.files Core.trace].
        fold h1. fold s1. fold gone.
        assert (expires (Core.heap s) (name, r) = gone) as Hg
          by (unfold expires; simpl; by rewrite He).
        cbn [List.filter expiry_events]. rewrite !Hg. cbn [snd]. rewrite He.
        unfold s2 in Hage. destruct gone.
        -- unfold Core.bind at 1. destruct (Core.expire e) as [f|]; simpl in Hage |- *.
           ++ unfold Core.bind at 1. rewrite <- app_assoc in Hage. rewrite Hage. reflexivity.
           ++ unfold Core.bind at 1. rewrite app_nil_r in Hage. rewrite Hage. reflexivity.
        -- rewrite app_nil_r in Hage. simpl. exact Hage.
      * by rewrite Heff.
      * intros r'. rewrite Hheap, fmap_cons. simpl. unfold h1.
        destruct (decide (r' = r)) as [->|Hne].
        -- rewrite bool_decide_eq_false_2 by done.
           rewrite bool_decide_eq_true_2 by left.
           rewrite list_lookup_insert_eq by done. by rewrite He.
        -- rewrite list_lookup_insert_ne by done.
           destruct (bool_decide (r' ∈ rest.*2)) eqn:E.
           ++ apply bool_decide_eq_true in E. rewrite bool_decide_eq_true_2 by (by right). done.
           ++ apply bool_decide_eq_false in E. rewrite bool_decide_eq_false_2; [done|].
              intros [?|?]%elem_of_cons; done.
Qed.


Lemma od_get_filter_absent {V} (Q : string * V -> bool) (k : string) (d : list (string * V)) :
  k ∉ d.*1 -> Core.od_get k (List.filter Q d) = None.
Proof.
  induction d as [|[k' v] d IH]; intros Hk; [reflexivity|].
  rewrite fmap_cons in Hk. apply not_elem_of_cons in Hk as [Hne Hk].
  simpl. destruct (Q (k', v)); [|by apply IH].
  simpl. destruct (String.eqb_spec k k'); [done|by apply IH].
Qed.

Lemma od_get_filter_removed {V} (P : string * V -> bool) (k : string) (v : V)
    (d : list (string * V)) :
  NoDup d.*1 -> (k, v) ∈ d -> P (k, v) = true ->
  Core.od_get k (List.filter (fun x => negb (P x)) d) = None.
Proof.
  induction d as [|[k' v'] d IH]; intros Hnd Hin HP; [by apply elem_of_nil in Hin|].
  rewrite fmap_cons in Hnd. apply NoDup_cons in Hnd as [Hk' Hnd].
  apply elem_of_cons in Hin as [[= <- <-]|Hin]; simpl.
  - rewrite HP. simpl. by apply od_get_filter_absent.
  - assert (k <> k') as Hne.
    { intros ->. apply Hk', list_elem_of_fmap. by exists (k', v). }
    destruct (negb (P (k', v'))); [|by apply IH].
    simpl. destruct (String.eqb_spec k k'); [done|by apply IH].
Qed.

Lemma expiry_events_are_expiries (h : list (Core.Effect Fn)) (d : list (string * nat)) :
  Forall (fun ev => exists f, ev = Core.Expired f) (expiry_events h d).
Proof.
  induction d as [|x d IH]; simpl; [constructor|].
  apply Forall_app. split; [|exact IH].
  destruct (expires h x); [|constructor].
  destruct (h !! x.2) as [e|]; [|constructor].
  destruct (Core.expire e) as [f|]; simpl; [|constructor].
  constructor; [by exists f|constructor].
Qed.

(** Whenever the first loop returns, the story it leaves is the one the
    contract describes. *)
Lemma age_story_run (snapshot : list (string * nat)) :
  forall (w w' : Core.world Fn) (names : list string),
    Core.age call snapshot w = (Ok names, w') ->
    Core.story w' = age_story call snapshot (Core.story w).
Proof.
  induction snapshot as [|[name r] rest IH]; intros w w' names H.
  - simpl in H. by injection H as _ <-.
  - cbn [Core.age age_story] in *.
    unfold Core.bind at 1, Core.deref, Core.bind at 1, Core.get_story in H.
    destruct (Core.heap (Core.story w) !! r) as [e|]; [|discriminate H].
    unfold Core.ret at 1 in H.
    unfold Core.bind at 1, Core.modify at 1 in H. cbn beta iota in H.
    change (Core.duration (Core.decrement e)) with (Core.duration e - 1) in H.
    destruct (Core.duration e - 1 <=? 0).
    + unfold Core.bind at 1 in H.
      destruct (Core.expire e) as [f|]; cbn [Core.invoke Core.ret] in H;
        unfold Core.bind at 1 in H;
        match type of H with context [Core.age call rest ?w2] =>
          destruct (Core.age call rest w2) as [[ns|x] w3] eqn:E
        end; try discriminate H;
        injection H as _ <-; by rewrite (IH _ _ _ E).
    + by rewrite (IH _ _ _ H).
Qed.

(** One tick, exactly: the story the contract describes, less the
    entries that ran out. *)
Lemma update_effects_exact (w : Core.world Fn) :
  registry_ok (Core.story w) ->
  effects_quiet call (Core.story w) ->
  let s := Core.story w in
  Core._update_effects call w
  = (Ok tt,
     Core.World
       (Core.set_effects
          (List.filter (fun x => negb (expires (Core.heap s) x)) (Core.effects s))
          (age_story call (Core.effects s) s))
       (Core.files w)
       (Core.trace w ++ expiry_events (Core.heap s) (Core.effects s)))
  /\ (forall r,
        Core.heap (age_story call (Core.effects s) s) !! r
        = if bool_decide (r ∈ (Core.effects s).*2)
          then Core.decrement <$> Core.heap s !! r
          else Core.heap s !! r).
Proof.
  intros (Hnames & Hrefs & Hsome) Hquiet s. subst s.
  destruct w as [s0 fs tr]. cbn [Core.story Core.files Core.trace] in *.
  destruct (age_spec (Core.effects s0) s0 fs tr Hrefs Hsome Hquiet)
    as (s1 & Hage & Heff & Hheap).
  pose proof (age_story_run _ _ _ _ Hage) as Hs1. cbn [Core.story] in Hs1. subst s1.
  split; [|exact Hheap].
  unfold Core._update_effects. unfold Core.bind at 1, Core.get_story.
  cbn [Core.story]. unfold Core.bind at 1. rewrite Hage.
  apply (forget_spec (expires (Core.heap s0)) (Core.effects s0) []
           (age_story call (Core.effects s0) s0)); [done|].
  by rewrite Heff.
Qed.

(** C5, as the source has it: one tick returns normally and leaves
    exactly the story the contract describes: the duration of every
    registered effect is down by one; the effects whose duration is then
    zero or less have had their expiry callback (when they have one)
    invoked on the story, once each and in registry order, and are out
    of the registry, the others stay; nothing but expiry callbacks is
    invoked.  So an effect whose duration is 1, 0 or negative is gone
    after the first tick.  This holds for a registry of distinct effect
    objects whose expiry callbacks leave the registry and the effect
    objects alone. *)
Theorem tick_ages_effects (w : Core.world Fn) :
  registry_ok (Core.story w) ->
  (forall r e f,
     Core.heap (Core.story w) !! r = Some e -> Core.expire e = Some f -> quiet call f) ->
  let s := Core.story w in
  let s' := Core.set_effects
              (List.filter (fun x => negb (expires (Core.heap s) x)) (Core.effects s))
              (age_story call (Core.effects s) s) in
  Core._update_effects call w
  = (Ok tt,
     Core.World s' (Core.files w)
       (Core.trace w ++ expiry_events (Core.heap s) (Core.effects s)))
  /\ (forall name r, (name, r) ∈ Core.effects s ->
        Core.heap s' !! r = Core.decrement <$> Core.heap s !! r)
  /\ Forall (fun ev => exists f, ev = Core.Expired f)
       (expiry_events (Core.heap s) (Core.effects s))
  /\ (forall name r e, (name, r) ∈ Core.effects s -> Core.heap s !! r = Some e ->
        Core.duration e <= 1 -> Core.od_get name (Core.effects s') = None).
Proof.
  intros Hok Hquiet s s'.
  destruct (update_effects_exact w Hok Hquiet) as [E Hheap].
  destruct Hok as (Hnames & _ & _).
  split; [exact E|]. split; [|split].
  - intros name r Hin. unfold s'. cbn [Core.heap Core.set_effects]. rewrite Hheap.
    rewrite bool_decide_eq_true_2; [done|].
    apply list_elem_of_fmap. by exists (name, r).
  - apply expiry_events_are_expiries.
  - intros name r e Hin He Hd. unfold s'. cbn [Core.effects Core.set_effects].
    apply (od_get_filter_removed (expires (Core.heap s)) name r); [done|done|].
    unfold expires. simpl. fold s. rewrite He. apply Z.leb_le. lia.
Qed.

End EffectFacts.

Lemma script_quiet (f : Script.op) : quiet Script.run f.
Proof. intros s. by destruct f. Qed.

(** A poison of duration 1: registered, it has been applied once; one
    tick later it has expired, once, is gone, and the five hit points of
    its expiry are there. *)
Lemma tick_ages_effects_witness :
  Core.effects (Core.story (poisoned 1)) = [("poison", 0%nat)]
  /\ fst (Core._update_effects Script.run (poisoned 1)) = Ok tt
  /\ Core.effects (Core.story (snd (Core._update_effects Script.run (poisoned 1)))) = []
  /\ Core.trace (snd (Core._update_effects Script.run (poisoned 1)))
     = [Core.Applied (Script.Heal (-1)); Core.Expired (Script.Heal 5)]
  /\ Core.story_get_hp (Core.story (snd (Core._update_effects Script.run (poisoned 1)))) = 14.
Proof.
  destruct (tick_ages_effects Script.run (poisoned 1)) as (E & _).
  - vm_compute. repeat constructor; try (intros H; inversion H). by exists
      {| Core.eff_name := "poison"; Core.duration := 1;
         Core.eff_apply := Script.Heal (-1); Core.expire := Some (Script.Heal 5) |}.
  - intros r e f _ _. apply script_quiet.
  - rewrite E. repeat split.
Defined.

(** C5 as stated fails when an expiry callback edits the registry: the
    burn's callback takes the burn out, the second loop then raises
    [KeyError] on it, and the chill, whose duration has also reached
    zero, stays registered. *)
Lemma tick_with_unregistering_callback :
  Core.effects (Core.story burning) = [("burn", 0%nat); ("chill", 1%nat)]
  /\ fst (Core._update_effects run_hook burning) = Raise KeyError
  /\ Core.effects (Core.story (snd (Core._update_effects run_hook burning)))
     = [("chill", 1%nat)]
  /\ Core.duration <$> Core.heap (Core.story (snd (Core._update_effects run_hook burning))) !! 1%nat
     = Some 0.
Proof. vm_compute. repeat split. Qed.

(** The lifecycle on concrete durations: 1, 0 and -2 expire on the first
    tick with one expiry and no second application; 2 survives the
    first tick and expires on the second. *)
Example effect_lifecycle :
  let tick1 d := snd (Core._update_effects Script.run (poisoned d)) in
  let tick2 d := snd (Core._update_effects Script.run (tick1 d)) in
  let gone w := Core.od_get "poison" (Core.effects (Core.story w)) in
  let applied := Core.Applied (Script.Heal (-1)) in
  let expired := Core.Expired (Script.Heal 5) in
  (gone (tick1 1) = None /\ Core.trace (tick1 1) = [applied; expired])
  /\ (gone (tick1 0) = None /\ Core.trace (tick1 0) = [applied; expired])
  /\ (gone (tick1 (-2)) = None /\ Core.trace (tick1 (-2)) = [applied; expired])
  /\ (gone (tick1 2) = Some 0%nat /\ Core.trace (tick1 2) = [applied])
  /\ (gone (tick2 2) = None /\ Core.trace (tick2 2) = [applied; expired]).
Proof. vm_compute. repeat split. Qed.

(** * Further properties of [step] *)

Section StepMore.
Context {Fn : Type} (call : Fn -> Core.Story Fn -> Core.Story Fn).

Lemma run_function_dict (role : Fn -> Core.event Fn) (d : gmap string (value Fn))
    (w : Core.world Fn) :
  Core.run_function call role (VDict d) w = (Ok tt, after_function call role d w).
Proof.
  unfold Core.run_function, Core.bind, Core.lift, after_function, entry_function.
  simpl. destruct (d !! "function") as [v|]; simpl.
  - destruct (callable v); simpl; [reflexivity|].
    unfold Core.ret. rewrite app_nil_r. by destruct w.
  - unfold Core.ret. rewrite app_nil_r. by destruct w.
Qed.

(** [_get_node] never moves the cursor, invokes nothing, and answers by
    the walk from the story's database along the story's path. *)
Lemma get_node_frame (w : Core.world Fn) :
  fst (Core._get_node w)
    = resolved (walk (Core._database (Core.story w)) (Core.path (Core.story w)))
  /\ Core.path (Core.story (snd (Core._get_node w))) = Core.path (Core.story w)
  /\ Core.trace (snd (Core._get_node w)) = Core.trace w
  /\ Core.files (snd (Core._get_node w)) = Core.files w.
Proof.
  unfold Core._get_node, Core.bind, Core.get_story. simpl.
  destruct (walk _ _) as [node|[]]; simpl; by repeat split.
Qed.

(** X1: a choice that declares [next_path] sets the cursor to it,
    whatever the entry function of the node and the function of the
    choice did to the cursor before; these two are invoked once each, in
    that order, and the result is what the new cursor resolves to in the
    story they left. *)
Theorem step_follows_next_path (w : Core.world Fn) (answer : string)
    (d a c : gmap string (value Fn)) (l : list (value Fn)) (p : list string) :
  walk (Core._database (Core.story w)) (Core.path (Core.story w)) = Ok (VDict d) ->
  truthy (VDict d) = true ->
  default (VDict ∅) (d !! "answers") = VDict a ->
  a !! answer = Some (VDict c) ->
  c !! "next_path" = Some (VList l) ->
  mapM as_str l = Some p ->
  let w1 := Core.World (visited (VDict d) (Core.story w)) (Core.files w) (Core.trace w) in
  let w3 := after_function call Core.Choice c (after_function call Core.Entry d w1) in
  let r := Core.step call (Some answer) w in
  Core.path (Core.story (snd r)) = p
  /\ Core.trace (snd r)
     = Core.trace w ++ optional_event Core.Entry (entry_function d)
         ++ optional_event Core.Choice (entry_function c)
  /\ fst r = resolved (walk (Core._database (Core.story w3)) p).
Proof.
  intros Hwalk Ht Hans Hkey Hnext Hp w1 w3 r.
  assert (r = Core._get_node
                (Core.World (Core.set_path p (Core.story w3)) (Core.files w3) (Core.trace w3)))
    as ->.
  { unfold r, Core.step. unfold Core.bind at 1. rewrite (get_node_found _ _ Hwalk).
    fold w1. rewrite Ht. cbn [negb].
    unfold Core.bind at 1. rewrite run_function_dict.
    unfold Core.bind at 1, Core.lift at 1. cbn [py_get]. rewrite Hans.
    unfold Core.bind at 1, Core.lift at 1. cbn [py_in]. rewrite Hkey.
    rewrite bool_decide_eq_true_2 by eauto. cbn [negb].
    unfold Core.bind at 1, Core.lift at 1. cbn [py_getitem]. rewrite Hkey.
    unfold Core.bind at 1. rewrite run_function_dict. fold w3.
    unfold Core.bind at 1, Core.lift at 1. cbn [py_get]. rewrite Hnext. cbn [default id].
    unfold Core.bind at 1, Core.lift at 1. cbn [copy_path]. rewrite Hp.
    unfold Core.bind at 1, Core.modify at 1. reflexivity. }
  destruct (get_node_frame
              (Core.World (Core.set_path p (Core.story w3)) (Core.files w3) (Core.trace w3)))
    as (Hres & Hpath & Htrace & _).
  rewrite Hres, Hpath, Htrace. split; [reflexivity|]. split; [|reflexivity].
  unfold w3, after_function. cbn [Core.trace]. by rewrite <- app_assoc.
Qed.

Lemma visited_twice (node : value Fn) (s : Core.Story Fn) :
  visited node (visited node s) = visited node s.
Proof. unfold visited. cbn. by rewrite insert_insert_eq. Qed.

Lemma step_look (w : Core.world Fn) (d : gmap string (value Fn)) :
  walk (Core._database (Core.story w)) (Core.path (Core.story w)) = Ok (VDict d) ->
  truthy (VDict d) = true ->
  entry_function d = None ->
  Core.step call None w
  = (Ok (VDict d),
     Core.World (visited (VDict d) (Core.story w)) (Core.files w) (Core.trace w)).
Proof.
  intros Hwalk Ht Hf.
  unfold Core.step. unfold Core.bind at 1. rewrite (get_node_found _ _ Hwalk).
  rewrite Ht. cbn [negb]. unfold Core.bind at 1. rewrite run_function_dict.
  unfold after_function. rewrite Hf.
  cbn [optional_call optional_event Core.story Core.files Core.trace].
  rewrite app_nil_r.
  rewrite (get_node_found
             (Core.World (visited (VDict d) (Core.story w)) (Core.files w) (Core.trace w))
             (VDict d) Hwalk).
  cbn [Core.story Core.files Core.trace]. by rewrite visited_twice.
Qed.

(** X2: looking at a node that has no entry function changes nothing but
    the visit record, and looking again changes nothing at all. *)
Theorem step_look_is_idempotent (w : Core.world Fn) (d : gmap string (value Fn)) :
  walk (Core._database (Core.story w)) (Core.path (Core.story w)) = Ok (VDict d) ->
  truthy (VDict d) = true ->
  entry_function d = None ->
  let w1 := Core.World (visited (VDict d) (Core.story w)) (Core.files w) (Core.trace w) in
  Core.step call None w = (Ok (VDict d), w1)
  /\ Core.step call None w1 = (Ok (VDict d), w1).
Proof.
  intros Hwalk Ht Hf w1. split; [by apply step_look|].
  rewrite (step_look w1 d Hwalk Ht Hf). unfold w1.
  cbn [Core.story Core.files Core.trace]. by rewrite visited_twice.
Qed.

End StepMore.

(** In the forest, "go north" leads to the cave whatever the entry
    function of [start] did. *)
Lemma step_follows_next_path_witness :
  let w := Script.start (Script.forest (Some (Script.JumpTo ["nowhere"]))) ["start"] in
  let r := Core.step Script.run (Some "go north") w in
  Core.path (Core.story (snd r)) = ["cave"]
  /\ Core.trace (snd r) = [Core.Entry (Script.JumpTo ["nowhere"])]
  /\ fst r = Ok (VDict Script.cave).
Proof.
  destruct (step_follows_next_path Script.run
              (Script.start (Script.forest (Some (Script.JumpTo ["nowhere"]))) ["start"])
              "go north"
              (Script.forest_node (Some (Script.JumpTo ["nowhere"])))
              {[ "go north" := VDict {[ "next_path" := VList [VStr "cave"] ]} ]}
              {[ "next_path" := VList [VStr "cave"] ]}
              [VStr "cave"] ["cave"]) as (Hpath & Htrace & Hres);
    [vm_compute; reflexivity ..|].
  cbv zeta. rewrite Hpath, Htrace, Hres. repeat split; vm_compute; reflexivity.
Defined.

Lemma step_look_is_idempotent_witness :
  let w := Script.start (Script.forest None) ["cave"] in
  let w1 := Core.World (visited (VDict Script.cave) (Core.story w)) (Core.files w) (Core.trace w) in
  Core.step Script.run None w = (Ok (VDict Script.cave), w1)
  /\ Core.step Script.run None w1 = (Ok (VDict Script.cave), w1).
Proof.
  apply (step_look_is_idempotent Script.run (Script.start (Script.forest None) ["cave"])
           Script.cave);
    vm_compute; reflexivity.
Defined.

(** * The story map *)

Section MapFacts.
Context {Fn : Type}.

Lemma child_setdefault_same (k : string) (below : Core.tree -> Core.tree)
    (children : list (string * Core.tree)) :
  child k (Core.setdefault_then k below children)
  = Some (below (default (Core.Tree []) (child k children))).
Proof.
  induction children as [|[k' sub] rest IH]; simpl.
  - by rewrite String.eqb_refl.
  - destruct (String.eqb_spec k k') as [->|Hne]; simpl.
    + by rewrite String.eqb_refl.
    + destruct (String.eqb_spec k k'); [done|exact IH].
Qed.

Lemma child_setdefault_other (k k' : string) (below : Core.tree -> Core.tree)
    (children : list (string * Core.tree)) :
  k <> k' ->
  child k' (Core.setdefault_then k below children) = child k' children.
Proof.
  intros Hne. induction children as [|[k2 sub] rest IH]; simpl.
  - destruct (String.eqb_spec k' k); [by subst|reflexivity].
  - destruct (String.eqb_spec k k2) as [->|Hne2]; simpl.
    + destruct (String.eqb_spec k' k2); [by subst|reflexivity].
    + destruct (String.eqb_spec k' k2); [reflexivity|exact IH].
Qed.

Lemma walk_inserted (p : list string) : forall t : Core.tree,
  is_Some (tree_walk p (Core.insert_path p t)).
Proof.
  induction p as [|k rest IH]; intros [children]; simpl; [eauto|].
  rewrite child_setdefault_same. apply IH.
Qed.

Lemma walk_kept (p : list string) : forall (q : list string) (t : Core.tree),
  is_Some (tree_walk p t) -> is_Some (tree_walk p (Core.insert_path q t)).
Proof.
  induction p as [|k rest IH]; intros q [children] H; [destruct q; simpl; eauto|].
  destruct q as [|k2 q]; [exact H|]. simpl in *.
  destruct (decide (k2 = k)) as [->|Hne].
  - rewrite child_setdefault_same. destruct (child k children) as [sub|]; simpl.
    + by apply IH.
    + by destruct H.
  - by rewrite child_setdefault_other.
Qed.

Lemma walk_kept_foldl (p : list string) (ps : list (list string)) : forall t : Core.tree,
  is_Some (tree_walk p t) ->
  is_Some (tree_walk p (foldl (fun t q => Core.insert_path q t) t ps)).
Proof.
  induction ps as [|q ps IH]; intros t H; [exact H|].
  simpl. apply IH. by apply walk_kept.
Qed.

Lemma walk_foldl (p : list string) (ps : list (list string)) : forall t : Core.tree,
  p ∈ ps ->
  is_Some (tree_walk p (foldl (fun t q => Core.insert_path q t) t ps)).
Proof.
  induction ps as [|q ps IH]; intros t Hin; [by apply elem_of_nil in Hin|].
  simpl. apply elem_of_cons in Hin as [->|Hin].
  - apply walk_kept_foldl, walk_inserted.
  - by apply IH.
Qed.

Lemma generate_map_has {V} (nodes : gmap (list string) V) (p : list string) :
  is_Some (nodes !! p) -> is_Some (tree_walk p (Core.generate_map nodes)).
Proof.
  intros [v Hv]. unfold Core.generate_map. apply walk_foldl.
  apply list_elem_of_fmap. exists (p, v). split; [done|].
  by apply elem_of_map_to_list.
Qed.

(** X3: once [_get_node] has resolved the cursor, the generated map has
    a branch along the cursor's path, and it still has one along every
    path that was recorded before. *)
Theorem generate_map_covers_visits (w : Core.world Fn) (node : value Fn) :
  walk (Core._database (Core.story w)) (Core.path (Core.story w)) = Ok node ->
  let s' := Core.story (snd (Core._get_node w)) in
  is_Some (tree_walk (Core.path (Core.story w)) (Core.generate_map (Core.map_nodes s')))
  /\ (forall p, is_Some (Core.map_nodes (Core.story w) !! p) ->
        is_Some (tree_walk p (Core.generate_map (Core.map_nodes s')))).
Proof.
  intros Hwalk s'. unfold s'. rewrite (get_node_found _ _ Hwalk).
  cbn [snd Core.story]. unfold visited. cbn [Core.map_nodes Core.set_map_nodes].
  split.
  - apply generate_map_has. rewrite lookup_insert_eq. eauto.
  - intros p Hp. apply generate_map_has.
    destruct (decide (Core.path (Core.story w) = p)) as [->|Hne].
    + rewrite lookup_insert_eq. eauto.
    + by rewrite lookup_insert_ne.
Qed.

End MapFacts.

(** Having looked at the cave and then at [start], the map has both. *)
Lemma generate_map_covers_visits_witness :
  let w0 := Script.start (Script.forest None) ["cave"] in
  let w1 := snd (Core.bind Core._get_node (fun _ => Core.jump_to ["start"]) w0) in
  let s' := Core.story (snd (Core._get_node w1)) in
  is_Some (tree_walk ["start"] (Core.generate_map (Core.map_nodes s')))
  /\ is_Some (tree_walk ["cave"] (Core.generate_map (Core.map_nodes s'))).
Proof.
  destruct (generate_map_covers_visits
              (snd (Core.bind Core._get_node (fun _ => Core.jump_to ["start"])
                      (Script.start (Script.forest None) ["cave"])))
              (VDict (Script.forest_node None))) as [Hnew Hold];
    [vm_compute; reflexivity|].
  split; [exact Hnew|]. apply Hold. vm_compute. eauto.
Defined.

(** * Inventory, achievements and flags through the story *)

Section StateFacts.
Context {Fn : Type}.

Lemma new_items_agree :
  Tui._items (@Tui.new_Inventory Fn) = Core._items (@Core.new_Inventory Fn).
Proof. reflexivity. Qed.

Lemma calls_agree (cs : list (inventory_call Fn)) :
  forall (ti : Tui.Inventory Fn) (ci : Core.Inventory Fn),
    Tui._items ti = Core._items ci ->
    Tui._items (fold_left tui_do_call cs ti) = Core._items (fold_left do_call cs ci).
Proof.
  induction cs as [|c cs IH]; intros ti ci H; [exact H|].
  simpl. apply IH. destruct c; simpl; by rewrite H.
Qed.

Lemma occupied_step (c : inventory_call Fn) (inv : Core.Inventory Fn) :
  dom (Core.get_items (do_call inv c))
  = match c with
    | AddItem slot _ _ _ => {[ slot ]} ∪ dom (Core.get_items inv)
    | RemoveItem slot => dom (Core.get_items inv) ∖ {[ slot ]}
    end.
Proof.
  destruct c as [slot n d f|slot]; unfold Core.get_items; simpl.
  - rewrite (omap_insert_Some _ _ _ _ (Core.Item n d f)) by done. apply dom_insert_L.
  - rewrite omap_insert_None by done. apply dom_delete_L.
Qed.

Lemma occupied_calls (cs : list (inventory_call Fn)) : forall inv : Core.Inventory Fn,
  dom (Core.get_items (fold_left do_call cs inv))
  = fold_left (fun (occupied : gset string) c =>
                 match c with
                 | AddItem slot _ _ _ => {[ slot ]} ∪ occupied
                 | RemoveItem slot => occupied ∖ {[ slot ]}
                 end) cs (dom (Core.get_items inv)).
Proof.
  induction cs as [|c cs IH]; intros inv; [reflexivity|].
  simpl. rewrite IH, occupied_step. by destruct c.
Qed.

(** X5: after any sequence of [add_item] and [remove_item] on a new
    inventory, [get_items] reports exactly the slots whose last call was
    an [add_item], so their number is the number of such slots; the
    occupied slots of [story_engine.py]'s inventory, which keeps the
    empty ones in [get_items] and drops them in [Story.get_items], are
    the same. *)
Theorem inventory_occupancy (cs : list (inventory_call Fn)) :
  dom (Core.get_items (fold_left do_call cs Core.new_Inventory)) = occupied_after cs
  /\ size (Core.get_items (fold_left do_call cs Core.new_Inventory)) = size (occupied_after cs)
  /\ omap id (Tui.get_items (fold_left tui_do_call cs Tui.new_Inventory))
     = Core.get_items (fold_left do_call cs Core.new_Inventory).
Proof.
  assert (dom (Core.get_items (fold_left do_call cs (@Core.new_Inventory Fn)))
          = occupied_after cs) as Hdom.
  { rewrite occupied_calls. reflexivity. }
  split; [exact Hdom|]. split.
  - by rewrite <- Hdom, size_dom.
  - unfold Tui.get_items, Core.get_items.
    by rewrite (calls_agree cs Tui.new_Inventory Core.new_Inventory new_items_agree).
Qed.

(** X6: through the story, [add_item] makes [get_items] report the name
    and description given for that slot, whatever the slot held,
    [remove_item] makes it omit the slot, and neither changes what is
    reported for any other slot. *)
Theorem story_items_after (slot name description : string) (f : Core.equip Fn)
    (w : Core.world Fn) (other : string) :
  Core.story_get_items (Core.story (snd (Core.story_add_item slot name description f w))) !! other
    = (if decide (slot = other) then Some (name, description)
       else Core.story_get_items (Core.story w) !! other)
  /\ Core.story_get_items (Core.story (snd (Core.story_remove_item slot w))) !! other
    = (if decide (slot = other) then None
       else Core.story_get_items (Core.story w) !! other).
Proof.
  unfold Core.story_get_items, Core.get_items. cbn. rewrite !lookup_fmap, !lookup_omap.
  split; case_decide as H.
  - subst. by rewrite lookup_insert_eq.
  - by rewrite lookup_insert_ne.
  - subst. by rewrite lookup_insert_eq.
  - by rewrite lookup_insert_ne.
Qed.

(** X7: an achievement added is reported with its description; adding
    the same name again replaces the description and leaves the count
    where it was; a new name raises the count by one. *)
Theorem achievements_after (name d1 d2 : string) (w : Core.world Fn) :
  let w1 := snd (Core.story_add_achievement name d1 w) in
  let w2 := snd (Core.story_add_achievement name d2 w1) in
  Core.story_get_achievements (Core.story w1) !! name = Some d1
  /\ Core.story_get_achievements (Core.story w2) !! name = Some d2
  /\ size (Core.story_get_achievements (Core.story w2))
     = size (Core.story_get_achievements (Core.story w1))
  /\ size (Core.story_get_achievements (Core.story w1))
     = (if decide (is_Some (Core.story_get_achievements (Core.story w) !! name))
        then size (Core.story_get_achievements (Core.story w))
        else S (size (Core.story_get_achievements (Core.story w)))).
Proof.
  unfold Core.story_get_achievements, Core.get_achievements. cbn.
  split; [apply lookup_insert_eq|]. split; [apply lookup_insert_eq|]. split.
  - rewrite insert_insert_eq.
    rewrite <- (size_dom (D:=gset string) (<[name:=d2]> _)).
    rewrite <- (size_dom (D:=gset string) (<[name:=d1]> _)).
    by rewrite !dom_insert_L.
  - case_decide as H.
    + destruct H as [d H]. rewrite <- (insert_id _ _ _ H) at 2.
      rewrite <- (size_dom (D:=gset string) (<[name:=d1]> _)).
      rewrite <- (size_dom (D:=gset string) (<[name:=d]> _)).
      by rewrite !dom_insert_L.

    + apply map_size_insert_None. by apply eq_None_not_Some.
Qed.

(** X8: a flag reads as it was last set, a flag never set reads as the
    initial values have it, and one that is in neither reads false. *)
Theorem flags_after (database : value Fn) (values : gmap string bool)
    (key other : string) (v : bool) :
  let w := Core.World (Core.new_Story database values None None) ∅ [] in
  Core.get_flag other (Core.story w) = default false (values !! other)
  /\ Core.get_flag other (Core.story (snd (Core.set_flag key v w)))
     = (if decide (key = other) then v else default false (values !! other)).
Proof.
  unfold Core.get_flag. cbn. split; [reflexivity|].
  case_decide as H.
  - subst. by rewrite lookup_insert_eq.
  - by rewrite lookup_insert_ne.
Qed.

End StateFacts.

Section MapOnly.
Context {Fn : Type}.

Lemma walk_inserted_only (p : list string) : forall (q : list string) (t : Core.tree),
  is_Some (tree_walk p (Core.insert_path q t)) ->
  is_Some (tree_walk p t) \/ p `prefix_of` q.
Proof.
  induction p as [|k rest IH]; intros q [children] H; [left; simpl; eauto|].
  destruct q as [|k2 q]; [by left|]. simpl in H |- *.
  destruct (decide (k2 = k)) as [->|Hne].
  - rewrite child_setdefault_same in H.
    destruct (IH _ _ H) as [Hsub|Hpre].
    + destruct (child k children) as [sub|]; [by left|]. right.
      destruct rest as [|k' rest']; [apply prefix_cons, prefix_nil|].
      simpl in Hsub. by destruct Hsub.
    + right. by apply prefix_cons.
  - rewrite child_setdefault_other in H by done. by left.
Qed.

Lemma walk_foldl_only (p : list string) (ps : list (list string)) : forall t : Core.tree,
  is_Some (tree_walk p (foldl (fun t q => Core.insert_path q t) t ps)) ->
  is_Some (tree_walk p t) \/ exists q, q ∈ ps /\ p `prefix_of` q.
Proof.
  induction ps as [|q ps IH]; intros t H; [by left|].
  simpl in H. destruct (IH _ H) as [Ht|(q' & Hin & Hpre)].
  - destruct (walk_inserted_only p q t Ht) as [?|?]; [by left|].
    right. exists q. split; [left|done].
  - right. exists q'. split; [by right|done].
Qed.

(** X4: the generated map has no branch of its own: every path that can
    be followed down from its root is the beginning of a path that was
    recorded. *)
Theorem generate_map_only_visits {V} (nodes : gmap (list string) V) (p : list string) :
  is_Some (tree_walk p (Core.generate_map nodes)) ->
  p = [] \/ exists q, is_Some (nodes !! q) /\ p `prefix_of` q.
Proof.
  intros H. unfold Core.generate_map in H.
  destruct (walk_foldl_only p _ _ H) as [Hroot|(q & Hin & Hpre)].
  - left. destruct p as [|k rest]; [reflexivity|]. simpl in Hroot. by destruct Hroot.
  - right. exists q. split; [|done].
    apply list_elem_of_fmap in Hin as ([q' v] & -> & Hin).
    apply elem_of_map_to_list in Hin. simpl. eauto.
Qed.

End MapOnly.

(** Of the visit to [start, answers], the map keeps the branch [start]. *)
Lemma generate_map_only_visits_witness :
  ["start"] = [] \/
  exists q, is_Some (({[ ["start"; "answers"] := 1%nat ]} : gmap (list string) nat) !! q)
            /\ ["start"] `prefix_of` q.
Proof.
  apply (generate_map_only_visits {[ ["start"; "answers"] := 1%nat ]} ["start"]).
  vm_compute. eauto.
Defined.

(** * The event log and the message buffer *)

Section LogFacts.
Context {Fn : Type}.

Lemma log_all_spec (entries : list (Core.message Fn * option Core.MessageType)) :
  forall w : Core.world Fn,
    fst (log_all entries w) = Ok tt
    /\ Core.get_log (Core.story (snd (log_all entries w)))
       = Core.get_log (Core.story w) ++ entries
    /\ Core.get_messages (Core.story (snd (log_all entries w)))
       = Core.get_messages (Core.story w) ++ entries.
Proof.
  induction entries as [|[m style] rest IH]; intros w.
  - simpl. by rewrite !app_nil_r.
  - change (log_all ((m, style) :: rest) w)
      with (log_all rest
              (Core.World (logged m style (Core.story w)) (Core.files w) (Core.trace w))).
    destruct (IH (Core.World (logged m style (Core.story w)) (Core.files w) (Core.trace w)))
      as (H1 & H2 & H3).
    rewrite H1, H2, H3.
    unfold Core.get_log, Core.get_messages, logged. cbn.
    by rewrite <- !app_assoc.
Qed.

(** X9: the log keeps every entry ever logged, in order; the message
    buffer holds what was logged since it was last cleared; [print]
    feeds the buffer alone. *)
Theorem log_and_buffer (before after : list (Core.message Fn * option Core.MessageType))
    (m : Core.message Fn) (style : option Core.MessageType) (w : Core.world Fn) :
  let w1 := snd (log_all before w) in
  let w2 := snd (Core.clear_messages w1) in
  let w3 := snd (log_all after w2) in
  let w4 := snd (Core.print m style w3) in
  Core.get_log (Core.story w3) = Core.get_log (Core.story w) ++ before ++ after
  /\ Core.get_messages (Core.story w1) = Core.get_messages (Core.story w) ++ before
  /\ Core.get_messages (Core.story w2) = []
  /\ Core.get_messages (Core.story w3) = after
  /\ Core.get_log (Core.story w4) = Core.get_log (Core.story w3)
  /\ Core.get_messages (Core.story w4) = after ++ [(m, style)].
Proof.
  cbv zeta.
  destruct (log_all_spec before w) as (_ & Hlog1 & Hmsg1).
  destruct (log_all_spec after (snd (Core.clear_messages (snd (log_all before w)))))
    as (_ & Hlog3 & Hmsg3).
  assert (Core.get_log (Core.story (snd (Core.clear_messages (snd (log_all before w)))))
          = Core.get_log (Core.story w) ++ before) as Hlog2 by exact Hlog1.
  assert (Core.get_messages (Core.story (snd (Core.clear_messages (snd (log_all before w)))))
          = []) as Hmsg2 by reflexivity.
  rewrite Hlog2 in Hlog3. rewrite Hmsg2 in Hmsg3. simpl in Hmsg3.
  split; [by rewrite Hlog3, app_assoc|]. split; [exact Hmsg1|]. split; [reflexivity|].
  split; [exact Hmsg3|]. split; [reflexivity|].
  unfold Core.print, Core.modify. cbn. unfold Core.get_messages in Hmsg3. by rewrite Hmsg3.
Qed.

End LogFacts.

(** * Registering effects *)

Section ApplyFacts.
Context {Fn : Type} (call : Fn -> Core.Story Fn -> Core.Story Fn).

Lemma od_get_set_same {V} (k : string) (v : V) (d : list (string * V)) :
  Core.od_get k (Core.od_set k v d) = Some v.
Proof.
  induction d as [|[k' v'] d IH]; simpl.
  - by rewrite String.eqb_refl.
  - destruct (String.eqb_spec k k') as [->|Hne]; simpl.
    + by rewrite String.eqb_refl.
    + destruct (String.eqb_spec k k'); [done|exact IH].
Qed.

Lemma od_get_set_other {V} (k k' : string) (v : V) (d : list (string * V)) :
  k <> k' -> Core.od_get k' (Core.od_set k v d) = Core.od_get k' d.
Proof.
  intros Hne. induction d as [|[k2 v2] d IH]; simpl.
  - destruct (String.eqb_spec k' k); [by subst|reflexivity].
  - destruct (String.eqb_spec k k2) as [->|Hne2]; simpl.
    + destruct (String.eqb_spec k' k2); [by subst|reflexivity].
    + destruct (String.eqb_spec k' k2); [reflexivity|exact IH].
Qed.

Lemma length_od_set {V} (k : string) (v : V) (d : list (string * V)) :
  length (Core.od_set k v d)
  = match Core.od_get k d with
    | Some _ => length d
    | None => S (length d)
    end.
Proof.
  induction d as [|[k' v'] d IH]; simpl; [reflexivity|].
  destruct (String.eqb_spec k k'); simpl; [reflexivity|].
  rewrite IH. by destruct (Core.od_get k d).
Qed.

(** X10: [apply_effect] puts the effect in the registry under its name
    and invokes its [apply] at once, and nothing else: an effect already
    registered under that name is replaced in place, without its
    [expire] being invoked, and the other entries stay.  The [apply]
    callback is taken to leave the registry alone. *)
Theorem apply_effect_registers (w : Core.world Fn) (r : nat) (e : Core.Effect Fn) :
  Core.heap (Core.story w) !! r = Some e ->
  quiet call (Core.eff_apply e) ->
  let w' := snd (Core.apply_effect call r w) in
  fst (Core.apply_effect call r w) = Ok tt
  /\ Core.trace w' = Core.trace w ++ [Core.Applied (Core.eff_apply e)]
  /\ Core.od_get (Core.eff_name e) (Core.effects (Core.story w')) = Some r
  /\ (forall other, Core.eff_name e <> other ->
        Core.od_get other (Core.effects (Core.story w'))
        = Core.od_get other (Core.effects (Core.story w)))
  /\ length (Core.effects (Core.story w'))
     = match Core.od_get (Core.eff_name e) (Core.effects (Core.story w)) with
       | Some _ => length (Core.effects (Core.story w))
       | None => S (length (Core.effects (Core.story w)))
       end.
Proof.
  intros He Hq w'.
  assert (Core.apply_effect call r w
          = (Ok tt,
             Core.World
               (call (Core.eff_apply e)
                  (Core.set_effects
                     (Core.od_set (Core.eff_name e) r (Core.effects (Core.story w)))
                     (Core.story w)))
               (Core.files w) (Core.trace w ++ [Core.Applied (Core.eff_apply e)]))) as E.
  { unfold Core.apply_effect, Core.deref. unfold Core.bind at 1, Core.bind at 1, Core.get_story.
    cbn [Core.story]. rewrite He. reflexivity. }
  unfold w'. rewrite E. cbn [fst snd Core.story Core.trace].
  destruct (Hq (Core.set_effects
                  (Core.od_set (Core.eff_name e) r (Core.effects (Core.story w)))
                  (Core.story w))) as [-> _].
  cbn [Core.effects Core.set_effects].
  split; [reflexivity|]. split; [reflexivity|]. split; [apply od_get_set_same|].
  split; [intros other Hne; by apply od_get_set_other|apply length_od_set].
Qed.

End ApplyFacts.

(** The venom takes the place of the poison: one entry, the new object,
    one application, no expiry. *)
Lemma apply_effect_registers_witness :
  let w := snd (Core.new_Effect venom (poisoned 3)) in
  let w' := snd (Core.apply_effect Script.run 1 w) in
  Core.effects (Core.story w') = [("poison", 1%nat)]
  /\ Core.trace w' = [Core.Applied (Script.Heal (-1)); Core.Applied (Script.Heal (-2))].
Proof.
  destruct (apply_effect_registers Script.run (snd (Core.new_Effect venom (poisoned 3)))
              1 venom) as (_ & Htrace & _).
  - reflexivity.
  - apply script_quiet.
  - cbv zeta. rewrite Htrace. split; reflexivity.
Defined.

(** * Effects over several ticks *)

Section ScheduleFacts.
Context {Fn : Type} (call : Fn -> Core.Story Fn -> Core.Story Fn).

(** One tick, with the heap it leaves. *)
Lemma update_effects_spec (w : Core.world Fn) :
  registry_ok (Core.story w) ->
  effects_quiet call (Core.story w) ->
  exists s',
    Core._update_effects call w
    = (Ok tt,
       Core.World s' (Core.files w)
         (Core.trace w ++ expiry_events (Core.heap (Core.story w)) (Core.effects (Core.story w))))
    /\ Core.effects s'
       = List.filter (fun x => negb (expires (Core.heap (Core.story w)) x))
           (Core.effects (Core.story w))
    /\ (forall r,
          Core.heap s' !! r
          = if bool_decide (r ∈ (Core.effects (Core.story w)).*2)
            then Core.decrement <$> Core.heap (Core.story w) !! r
            else Core.heap (Core.story w) !! r).
Proof.
  intros (Hnames & Hrefs & Hsome) Hquiet.
  destruct w as [s0 fs tr]. cbn [Core.story Core.files Core.trace] in *.
  destruct (age_spec call (Core.effects s0) s0 fs tr Hrefs Hsome Hquiet)
    as (s1 & Hage & Heff & Hheap).
  exists (Core.set_effects
            (List.filter (fun x => negb (expires (Core.heap s0) x)) (Core.effects s0)) s1).
  split; [|split; [reflexivity|exact Hheap]].
  unfold Core._update_effects. unfold Core.bind at 1, Core.get_story.
  cbn [Core.story]. unfold Core.bind at 1. rewrite Hage.
  apply (forget_spec (expires (Core.heap s0)) (Core.effects s0) [] s1); [done|].
  by rewrite Heff.
Qed.


Lemma filter_fmap_elem {A B} (f : A -> B) (P : A -> bool) (d : list A) (y : B) :
  y ∈ f <$> List.filter P d -> y ∈ f <$> d.
Proof.
  intros (x & -> & Hx)%list_elem_of_fmap. apply list_elem_of_fmap. exists x.
  split; [done|]. apply list_elem_of_In. apply list_elem_of_In, filter_In in Hx. tauto.
Qed.

Lemma NoDup_filter_fmap {A B} (f : A -> B) (P : A -> bool) (d : list A) :
  NoDup (f <$> d) -> NoDup (f <$> List.filter P d).
Proof.
  induction d as [|x d IH]; intros Hnd; [done|].
  rewrite fmap_cons in Hnd. apply NoDup_cons in Hnd as [Hx Hnd].
  simpl. destruct (P x); [|by apply IH].
  rewrite fmap_cons. apply NoDup_cons. split; [|by apply IH].
  intros Hin. by apply Hx, (filter_fmap_elem f P).
Qed.

Lemma od_get_elem {V} (k : string) (v : V) (d : list (string * V)) :
  Core.od_get k d = Some v -> (k, v) ∈ d.
Proof.
  induction d as [|[k' v'] d IH]; simpl; [done|].
  destruct (String.eqb_spec k k') as [->|_].
  - intros [= ->]. left.
  - intros H. right. by apply IH.
Qed.

Lemma od_get_absent {V} (k : string) (d : list (string * V)) :
  Core.od_get k d = None -> k ∉ d.*1.
Proof.
  induction d as [|[k' v'] d IH]; simpl; [intros _; apply not_elem_of_nil|].
  destruct (String.eqb_spec k k') as [->|Hne]; [done|].
  intros H. apply not_elem_of_cons. split; [done|by apply IH].
Qed.

Lemma od_get_filter_kept {V} (P : string * V -> bool) (k : string) (v : V)
    (d : list (string * V)) :
  Core.od_get k d = Some v -> P (k, v) = true ->
  Core.od_get k (List.filter P d) = Some v.
Proof.
  induction d as [|[k' v'] d IH]; simpl; [done|].
  destruct (String.eqb_spec k k') as [->|Hne].
  - intros [= ->] HP. rewrite HP. simpl. by rewrite String.eqb_refl.
  - intros H HP. destruct (P (k', v')); [|by apply IH].
    simpl. destruct (String.eqb_spec k k'); [done|by apply IH].
Qed.

(** A tick leaves the registry and the heap as well formed as it found
    them. *)
Lemma tick_keeps_registry (s s' : Core.Story Fn) :
  registry_ok s -> effects_quiet call s ->
  Core.effects s' = List.filter (fun x => negb (expires (Core.heap s) x)) (Core.effects s) ->
  (forall r,
     Core.heap s' !! r
     = if bool_decide (r ∈ (Core.effects s).*2)
       then Core.decrement <$> Core.heap s !! r
       else Core.heap s !! r) ->
  registry_ok s' /\ effects_quiet call s'.
Proof.
  intros (Hnames & Hrefs & Hsome) Hquiet Heff Hheap. split; [split; [|split]|].
  - rewrite Heff. by apply NoDup_filter_fmap.
  - rewrite Heff. by apply NoDup_filter_fmap.
  - rewrite Heff. apply Forall_forall. intros x Hx.
    apply list_elem_of_In, filter_In in Hx as [Hx _]. apply list_elem_of_In in Hx.
    rewrite Forall_forall in Hsome. destruct (Hsome x Hx) as [e He].
    rewrite Hheap, bool_decide_eq_true_2, He; [by eexists|].
    apply list_elem_of_fmap. by exists x.
  - intros r e' f Hr Hf. rewrite Hheap in Hr. case_bool_decide.
    + destruct (Core.heap s !! r) as [e|] eqn:He; [|done].
      injection Hr as <-. by apply (Hquiet r e f).
    + by apply (Hquiet r e' f).
Qed.

Lemma ticks_step (k : nat) (w : Core.world Fn) (s' : Core.Story Fn)
    (tr' : list (Core.event Fn)) :
  Core._update_effects call w = (Ok tt, Core.World s' (Core.files w) tr') ->
  ticks call (S k) w = ticks call k (Core.World s' (Core.files w) tr').
Proof. intros E. cbn [ticks]. unfold Core.bind. by rewrite E. Qed.

(** A name that is not registered stays so. *)
Lemma ticks_absent (k : nat) (name : string) : forall w : Core.world Fn,
  registry_ok (Core.story w) -> effects_quiet call (Core.story w) ->
  Core.od_get name (Core.effects (Core.story w)) = None ->
  fst (ticks call k w) = Ok tt
  /\ Core.od_get name (Core.effects (Core.story (snd (ticks call k w)))) = None.
Proof.
  induction k as [|k IH]; intros w Hok Hq Habs; [done|].
  destruct (update_effects_spec w Hok Hq) as (s' & E & Heff & Hheap).
  rewrite (ticks_step k w s' _ E).
  destruct (tick_keeps_registry _ s' Hok Hq Heff Hheap) as [Hok' Hq'].
  apply IH; [done|done|]. cbn [Core.story]. rewrite Heff.
  by apply od_get_filter_absent, od_get_absent.
Qed.

(** X11: an effect in the registry is aged by one at every tick and is
    removed by the first tick that finds its duration at one or less: it
    is still registered, with its duration down by [k], after [k] ticks
    that come before that, and gone after every later one.  The expiry
    callbacks are taken to leave the registry and the effect objects
    alone. *)
Theorem effect_expires_on_schedule (k : nat) : forall (w : Core.world Fn)
    (name : string) (r : nat) (e : Core.Effect Fn),
  registry_ok (Core.story w) ->
  effects_quiet call (Core.story w) ->
  Core.od_get name (Core.effects (Core.story w)) = Some r ->
  Core.heap (Core.story w) !! r = Some e ->
  let wk := snd (ticks call k w) in
  fst (ticks call k w) = Ok tt
  /\ Core.od_get name (Core.effects (Core.story wk))
     = (if bool_decide ((0 < k)%nat /\ Core.duration e <= Z.of_nat k) then None else Some r)
  /\ (bool_decide ((0 < k)%nat /\ Core.duration e <= Z.of_nat k) = false ->
      Core.duration <$> Core.heap (Core.story wk) !! r = Some (Core.duration e - Z.of_nat k)).
Proof.
  induction k as [|k IH]; intros w name r e Hok Hq Hreg He; cbv zeta.
  - cbn [ticks Core.ret fst snd]. split; [done|].
    rewrite bool_decide_eq_false_2 by lia. split; [done|].
    intros _. rewrite He. simpl. f_equal. lia.
  - destruct (update_effects_spec w Hok Hq) as (s' & E & Heff & Hheap).
    rewrite (ticks_step k w s' _ E).
    destruct (tick_keeps_registry _ s' Hok Hq Heff Hheap) as [Hok' Hq'].
    destruct Hok as (Hnames & Hrefs & Hsome).
    pose proof (od_get_elem _ _ _ Hreg) as Hin.
    destruct (expires (Core.heap (Core.story w)) (name, r)) eqn:Hexp.
    + assert (Core.duration e <= 1) as Hd.
      { unfold expires in Hexp. simpl in Hexp. rewrite He in Hexp.
        apply Z.leb_le in Hexp. lia. }
      destruct (ticks_absent k name (Core.World s' (Core.files w)
                  (Core.trace w ++ expiry_events (Core.heap (Core.story w))
                                     (Core.effects (Core.story w)))))
        as [Hres Habs]; [done|done| |].
      { cbn [Core.story]. rewrite Heff.
        by apply (od_get_filter_removed (expires (Core.heap (Core.story w))) name r). }
      rewrite bool_decide_eq_true_2 by lia. split; [done|]. split; [done|done].
    + assert (1 < Core.duration e) as Hd.
      { unfold expires in Hexp. simpl in Hexp. rewrite He in Hexp.
        apply Z.leb_gt in Hexp. lia. }
      destruct (IH (Core.World s' (Core.files w)
                      (Core.trace w ++ expiry_events (Core.heap (Core.story w))
                                         (Core.effects (Core.story w))))
                  name r (Core.decrement e)) as (Hres & Hget & Hdur); [done|done| | |].
      { cbn [Core.story]. rewrite Heff.
        apply od_get_filter_kept; [done|]. by rewrite Hexp. }
      { cbn [Core.story]. rewrite Hheap, bool_decide_eq_true_2, He; [done|].
        apply list_elem_of_fmap. by exists (name, r). }
      split; [done|]. cbn [Core.duration Core.decrement] in Hget, Hdur.
      assert (bool_decide ((0 < S k)%nat /\ Core.duration e <= Z.of_nat (S k))
              = bool_decide ((0 < k)%nat /\ Core.duration e - 1 <= Z.of_nat k)) as ->.
      { apply bool_decide_ext. lia. }
      split; [exact Hget|]. intros Hb. rewrite (Hdur Hb). f_equal. lia.
Qed.

End ScheduleFacts.

Lemma poisoned_registry_ok (d : Z) : registry_ok (Core.story (poisoned d)).
Proof.
  vm_compute. repeat constructor; try (intros H; inversion H).
  by eexists.
Qed.

(** A poison of duration 3 is still registered, down to 1, after two
    ticks. *)
Lemma effect_expires_on_schedule_witness :
  fst (ticks Script.run 2 (poisoned 3)) = Ok tt
  /\ Core.od_get "poison" (Core.effects (Core.story (snd (ticks Script.run 2 (poisoned 3)))))
     = Some 0%nat
  /\ Core.duration <$> Core.heap (Core.story (snd (ticks Script.run 2 (poisoned 3)))) !! 0%nat
     = Some 1.
Proof.
  destruct (effect_expires_on_schedule Script.run 2 (poisoned 3) "poison" 0%nat
              {| Core.eff_name := "poison"; Core.duration := 3;
                 Core.eff_apply := Script.Heal (-1); Core.expire := Some (Script.Heal 5) |})
    as (Hres & Hget & Hdur).
  - apply poisoned_registry_ok.
  - intros r e f _ _. apply script_quiet.
  - reflexivity.
  - reflexivity.
  - split; [exact Hres|]. split; [exact Hget|]. apply Hdur. reflexivity.
Defined.

(** * The tick *)

Section TickFacts.
Context {Fn : Type} (call : Fn -> Core.Story Fn -> Core.Story Fn).

(** X12: given that the story the tick function leaves has a registry
    of distinct effect objects, that the expiry callbacks leave the
    registry and the effect objects alone, and that the autosave file,
    if one is configured, can be opened for writing: one iteration of
    the tick loop invokes the tick function first, then ages the
    effects of the story that function left, then saves, so the file
    written holds the story as it is at the end of the tick, expiry
    callbacks run and expired effects gone. *)
Theorem tick_order_and_autosave (writable : string -> bool) (w : Core.world Fn) :
  let s1 := optional_call call (Core.tick_function (Core.story w)) (Core.story w) in
  let s' := Core.set_effects
              (List.filter (fun x => negb (expires (Core.heap s1) x)) (Core.effects s1))
              (age_story call (Core.effects s1) s1) in
  registry_ok s1 ->
  effects_quiet call s1 ->
  (forall filename, Core.auto_save s' = Some filename -> writable filename = true) ->
  Core.tick call writable w
  = (Ok tt,
     Core.World s' (autosaved s' (Core.files w))
       (Core.trace w ++ optional_event Core.Ticked (Core.tick_function (Core.story w))
          ++ expiry_events (Core.heap s1) (Core.effects s1))).
Proof.
  intros s1 s' Hok Hq Hw.
  destruct (update_effects_exact call
              (Core.World s1 (Core.files w)
                 (Core.trace w ++ optional_event Core.Ticked (Core.tick_function (Core.story w))))
              Hok Hq) as [E _].
  cbn [Core.story Core.files Core.trace] in E. fold s' in E.
  unfold Core.tick. unfold Core.bind at 1, Core.get_story.
  unfold Core.bind at 1. rewrite run_optional_spec. fold s1.
  unfold Core.bind at 1. rewrite E.
  unfold Core.bind at 1. cbn [Core.story]. rewrite <- app_assoc.
  unfold autosaved. destruct (Core.auto_save s') as [[|c f]|] eqn:Ha; [reflexivity| |reflexivity].
  unfold Core.save_state. by rewrite (Hw _ eq_refl).
Qed.

End TickFacts.

(** With a poison of duration 1 and autosave on, a tick leaves a file in
    which the five hit points of the expiry are already counted. *)
Lemma tick_order_and_autosave_witness :
  let s := Core.story (poisoned 1) in
  let w := Core.World
             {| Core._database := Core._database s; Core._flags := Core._flags s;
                Core._inventory := Core._inventory s;
                Core._achievements_of := Core._achievements_of s;
                Core._health := Core._health s; Core._log := Core._log s;
                Core._messages := Core._messages s; Core.map_nodes := Core.map_nodes s;
                Core.npcs := Core.npcs s; Core.effects := Core.effects s;
                Core.heap := Core.heap s; Core.current_puzzle := Core.current_puzzle s;
                Core.tick_function := Some (Script.SetFlag "ticked" true);
                Core.auto_save := Some "auto.json"; Core.path := Core.path s;
                Core._stop := Core._stop s |} ∅ [] in
  let r := Core.tick Script.run (fun _ => true) w in
  fst r = Ok tt
  /\ Core.trace (snd r)
     = [Core.Ticked (Script.SetFlag "ticked" true); Core.Expired (Script.Heal 5)]
  /\ Core.effects (Core.story (snd r)) = []
  /\ Core.files (snd r) !! "auto.json" = Some (Parsed (Core.encode_state (Core.story (snd r))))
  /\ Core.story_get_hp (Core.story (snd r)) = 14.
Proof.
  cbv zeta.
  match goal with |- fst (Core.tick _ _ ?w) = _ /\ _ =>
    pose proof (tick_order_and_autosave Script.run (fun _ => true) w) as E
  end.
  cbv zeta in E. rewrite E.
  - repeat split.
  - vm_compute. repeat constructor; try (intros H; inversion H). by eexists.
  - intros r e f _ _. apply script_quiet.
  - reflexivity.
Defined.

(** * Talking to an NPC *)

Section TalkFacts.
Context {Fn : Type}.

Lemma talk_no_choice (n : Core.NPC Fn) (w : Core.world Fn) (d : gmap string (value Fn)) :
  Core.npc_get_node n = Ok (VDict d) ->
  Core.talk n None w = (Ok (VDict d), n, talked n d w).
Proof. intros Hnode. unfold Core.talk. rewrite Hnode. reflexivity. Qed.

Lemma talk_invalid_choice (n : Core.NPC Fn) (w : Core.world Fn)
    (d a : gmap string (value Fn)) (c : string) :
  Core.npc_get_node n = Ok (VDict d) ->
  default (VDict ∅) (d !! "responses") = VDict a ->
  c <> "" -> a !! c = None ->
  Core.talk n (Some c) w = (Ok (Core.error_result "Invalid choice."), n, talked n d w).
Proof.
  intros Hnode Hresp Hc Hkey. unfold Core.talk. rewrite Hnode. cbn [py_get].
  destruct c as [|ch c]; [done|]. rewrite Hresp. cbn [py_in]. rewrite Hkey.
  reflexivity.
Qed.

Lemma talk_valid_choice (n : Core.NPC Fn) (w : Core.world Fn)
    (d a resp : gmap string (value Fn)) (c : string) (l : list (value Fn)) (p : list string) :
  Core.npc_get_node n = Ok (VDict d) ->
  default (VDict ∅) (d !! "responses") = VDict a ->
  c <> "" -> a !! c = Some (VDict resp) ->
  default (VList []) (resp !! "next") = VList l ->
  mapM as_str l = Some p ->
  Core.talk n (Some c) w
  = (walk (Core.dialogue n) p, Core.set_dialogue_path p n, talked n d w).
Proof.
  intros Hnode Hresp Hc Hkey Hnext Hp. unfold Core.talk. rewrite Hnode. cbn [py_get].
  destruct c as [|ch c]; [done|]. rewrite Hresp. cbn [py_in py_getitem]. rewrite Hkey.
  rewrite bool_decide_eq_true_2 by eauto.
  cbn [result_bind py_get]. rewrite Hnext. cbn [Core.as_path]. rewrite Hp.
  reflexivity.
Qed.

(** X13: at a node of the dialogue tree, [talk] without a choice returns
    the node; with a choice the node does not offer it returns the
    "Invalid choice." result; with a choice it offers it moves the NPC's
    cursor to the response's [next] and returns what that resolves to.
    In the first two cases the cursor stays, and in all three the story
    changes by the one log entry and nothing else. *)
Theorem talk_outcomes (n : Core.NPC Fn) (w : Core.world Fn) (d a : gmap string (value Fn)) :
  Core.npc_get_node n = Ok (VDict d) ->
  default (VDict ∅) (d !! "responses") = VDict a ->
  Core.talk n None w = (Ok (VDict d), n, talked n d w)
  /\ (forall c, c <> "" -> a !! c = None ->
        Core.talk n (Some c) w
        = (Ok (Core.error_result "Invalid choice."), n, talked n d w))
  /\ (forall c resp l p,
        c <> "" -> a !! c = Some (VDict resp) ->
        default (VList []) (resp !! "next") = VList l ->
        mapM as_str l = Some p ->
        Core.talk n (Some c) w
        = (walk (Core.dialogue n) p, Core.set_dialogue_path p n, talked n d w)).
Proof.
  intros Hnode Hresp. split; [by apply talk_no_choice|]. split.
  - intros c Hc Hkey. by apply (talk_invalid_choice n w d a).
  - intros c resp l p Hc Hkey Hnext Hp. by apply (talk_valid_choice n w d a resp c l p).
Qed.

(** X14: in any story, [talk_to] a name that is not registered returns
    [None] and changes nothing; [talk_to] a registered NPC with a choice
    its node offers stores the NPC with its cursor moved, whether or not
    the new cursor resolves, and leaves the story's own path alone. *)
Theorem talk_to_moves_the_npc (w : Core.world Fn) :
  (forall other choice,
     Core.npcs (Core.story w) !! other = None ->
     Core.talk_to other choice w = (Ok None, w))
  /\ (forall name n d a resp c l p,
        Core.npcs (Core.story w) !! name = Some n ->
        Core.npc_get_node n = Ok (VDict d) ->
        default (VDict ∅) (d !! "responses") = VDict a ->
        c <> "" -> a !! c = Some (VDict resp) ->
        default (VList []) (resp !! "next") = VList l ->
        mapM as_str l = Some p ->
        let r := Core.talk_to name (Some c) w in
        fst r = some_result (walk (Core.dialogue n) p)
        /\ Core.npcs (Core.story (snd r)) !! name = Some (Core.set_dialogue_path p n)
        /\ Core.path (Core.story (snd r)) = Core.path (Core.story w)).
Proof.
  split.
  - intros other choice Hother. unfold Core.talk_to. by rewrite Hother.
  - intros name n d a resp c l p Hn Hnode Hresp Hc Hkey Hnext Hp r.
    assert (r = (some_result (walk (Core.dialogue n) p),
                 Core.World
                   (Core.set_npcs (<[name := Core.set_dialogue_path p n]>
                                     (Core.npcs (Core.story (talked n d w))))
                      (Core.story (talked n d w)))
                   (Core.files w) (Core.trace w))) as ->.
    { unfold r, Core.talk_to. rewrite Hn.
      rewrite (talk_valid_choice n w d a resp c l p Hnode Hresp Hc Hkey Hnext Hp).
      by destruct (walk (Core.dialogue n) p). }
    split; [reflexivity|]. split; [apply lookup_insert_eq|reflexivity].
Qed.

End TalkFacts.

(** The guard says "Halt!", refuses "leave", and on "follow" is left
    pointing at the camp its tree does not have. *)
Lemma talk_outcomes_witness :
  let w := Script.start (Script.forest None) [] in
  fst (fst (Core.talk guard None w)) = Core.npc_get_node guard
  /\ Core.talk guard (Some "leave") w
     = (Ok (Core.error_result "Invalid choice."), guard,
        snd (Core.talk guard None w)).
Proof.
  destruct (talk_outcomes guard (Script.start (Script.forest None) [])
              {[ "text" := VStr "Halt!";
                 "responses" := VDict {[ "follow" := VDict {[ "next" := VList [VStr "camp"] ]} ]} ]}
              {[ "follow" := VDict {[ "next" := VList [VStr "camp"] ]} ]})
    as (Hnone & Hbad & _); [reflexivity|reflexivity|].
  cbv zeta. rewrite Hnone. split; [reflexivity|].
  apply Hbad; [discriminate|reflexivity].
Defined.

Lemma talk_to_moves_the_npc_witness :
  let w := snd (Core.register_npc guard (Script.start (Script.forest None) ["start"])) in
  let r := Core.talk_to "Guard" (Some "follow") w in
  Core.talk_to "Innkeeper" (Some "follow") w = (Ok None, w)
  /\ fst r = Raise KeyError
  /\ Core.dialogue_path <$> Core.npcs (Core.story (snd r)) !! "Guard" = Some ["camp"]
  /\ Core.path (Core.story (snd r)) = ["start"].
Proof.
  destruct (talk_to_moves_the_npc
              (snd (Core.register_npc guard (Script.start (Script.forest None) ["start"]))))
    as [Hnone Hsome].
  split; [by apply Hnone|].
  destruct (Hsome "Guard" guard
              {[ "text" := VStr "Halt!";
                 "responses" := VDict {[ "follow" := VDict {[ "next" := VList [VStr "camp"] ]} ]} ]}
              {[ "follow" := VDict {[ "next" := VList [VStr "camp"] ]} ]}
              {[ "next" := VList [VStr "camp"] ]}
              "follow" [VStr "camp"] ["camp"])
    as (Hres & Hnpc & Hpath);
    [reflexivity|reflexivity|reflexivity|discriminate|reflexivity|reflexivity|reflexivity|].
  cbv zeta. rewrite Hres, Hnpc, Hpath. repeat split.
Defined.

(** * Save and load in [story_engine.py], and a load that fails half way *)

Section MoreLoadFacts.
Context {Fn : Type}.

Lemma fmap_pointwise {A B} (f g : A -> B) (l : list A) :
  (forall x, f x = g x) -> f <$> l = g <$> l.
Proof. intros H. induction l as [|x l IH]; [done|]. by rewrite !fmap_cons, H, IH. Qed.

Lemma foldl_fmap_pointwise {A B C} (F : C -> B -> C) (G : C -> A -> C) (g : A -> B)
    (l : list A) :
  (forall c x, F c (g x) = G c x) ->
  forall c, foldl F c (g <$> l) = foldl G c l.
Proof.
  intros H. induction l as [|x l IH]; intros c; [done|].
  rewrite fmap_cons. simpl. by rewrite H, IH.
Qed.

Lemma tui_new_inventory_empty (slot : string) :
  Tui._items (@Tui.new_Inventory Fn) !! slot ≫= id = None.
Proof.
  rewrite new_items_agree. pose proof (@new_inventory_empty Fn slot) as E.
  unfold Core.get_items in E. by rewrite lookup_omap in E.
Qed.

(** X15: in [story_engine.py] too, [load_state] reads back what
    [save_state] wrote, into whatever story it is called on: no fault,
    nothing printed, and the hit points, the achievements and the name
    and description in every occupied slot are those of the story
    saved, every item carrying the no-op callback. *)
Theorem tui_save_load_roundtrip (filename : string) (files : gmap string content)
    (s s0 : Tui.Story Fn) :
  let r := Tui.load_state filename (Tui.save_state filename files s) s0 in
  fst r = Ok tt
  /\ Tui.get_hp (Tui._health (snd r)) = Tui.get_hp (Tui._health s)
  /\ Tui._achievements (snd r) = Tui._achievements s
  /\ Tui.story_get_items (snd r) = Tui.story_get_items s
  /\ Core.item_function <$> omap id (Tui.get_items (Tui._inventory (snd r)))
     = (fun _ => Core.LambdaNone) <$> omap id (Tui.get_items (Tui._inventory s))
  /\ Tui._messages (snd r) = Tui._messages s0.
Proof.
  intros r.
  set (occupied := map_to_list (omap id (Tui.get_items (Tui._inventory s)))).
  set (pairs := (fun '(slot, it) => (slot, (Core.item_name it, Core.item_description it)))
                  <$> occupied).
  assert (r = (Ok tt,
               Tui.set_inventory {| Tui._items := tui_rebuilt_items pairs |}
                 (Tui.set_achievements (rebuilt_achievements (map_to_list (Tui._achievements s)))
                    (Tui.set_health {| Tui._hp := Tui.get_hp (Tui._health s) |} s0)))) as ->.
  { unfold r, Tui.save_state.
    apply (tui_load_document filename files s0 _ (Some (Tui.get_hp (Tui._health s)))
             (Some pairs) (Some (map_to_list (Tui._achievements s)))); [reflexivity| |reflexivity].
    cbn. unfold encode_inventory, pairs. do 2 f_equal.
    rewrite <- list_fmap_compose. apply fmap_pointwise. by intros [slot it]. }
  cbn [fst snd].
  assert (forall k,
            @tui_rebuilt_items Fn pairs !! k ≫= id
            = (fun it : Core.item Fn =>
                 Core.Item (Core.item_name it) (Core.item_description it) Core.LambdaNone)
                <$> (Tui.get_items (Tui._inventory s) !! k ≫= id)) as Hitems.
  { intros k. unfold tui_rebuilt_items, pairs.
    rewrite (foldl_fmap_pointwise _
               (fun (m : gmap string (option (Core.item Fn))) '(slot, it) =>
                  <[slot := Some (Core.Item (Core.item_name it) (Core.item_description it)
                                    Core.LambdaNone)]> m)).
    2:{ by intros c [slot it]. }
    unfold occupied.
    etrans; [apply (f_equal (fun o => o ≫= id)),
               (foldl_insert_map_to_list
                  (fun it : Core.item Fn =>
                     Some (Core.Item (Core.item_name it) (Core.item_description it)
                             Core.LambdaNone)))|].
    rewrite lookup_omap.
    destruct (Tui.get_items (Tui._inventory s) !! k ≫= id) as [it|]; [reflexivity|].
    apply tui_new_inventory_empty. }
  split; [reflexivity|]. split; [reflexivity|]. split.
  { cbn. unfold rebuilt_achievements. apply map_eq. intros k.
    etrans; [apply (foldl_insert_map_to_list id)|].
    rewrite lookup_empty. by destruct (_ !! k). }
  split; [|split; [|reflexivity]].
  - unfold Tui.story_get_items, Tui.get_items. cbn [Tui._inventory Tui.set_inventory Tui._items].
    apply map_eq. intros k. rewrite !lookup_fmap, !lookup_omap, Hitems.
    unfold Tui.get_items. by destruct (Tui._items (Tui._inventory s) !! k ≫= id).
  - unfold Tui.get_items. cbn [Tui._inventory Tui.set_inventory Tui._items].
    apply map_eq. intros k. rewrite !lookup_fmap, !lookup_omap, Hitems.
    unfold Tui.get_items. by destruct (Tui._items (Tui._inventory s) !! k ≫= id).
Qed.

Lemma load_inventory_short_entry (good : list (string * (string * string)))
    (slot x : string) (rest : list (string * json)) : forall w : Core.world Fn,
  Core.load_inventory
    (((fun '(slot, (name, description)) => (slot, JList [JStr name; JStr description])) <$> good)
       ++ (slot, JList [JStr x]) :: rest) w
  = (Raise IndexError,
     Core.World
       (Core.set_inventory
          {| Core._items :=
               foldl (fun m '(slot, (name, description)) =>
                        <[slot := Some (Core.Item name description Core.LambdaNone)]> m)
                 (Core._items (Core._inventory (Core.story w))) good |}
          (Core.story w))
       (Core.files w) (Core.trace w)).
Proof.
  induction good as [|[k [n d]] good IH]; intros w.
  - destruct w as [[] ? ?]. simpl. by destruct _inventory.
  - simpl. unfold Core.bind, Core.lift. simpl.
    rewrite IH. reflexivity.
Qed.

(** X16: [load_state] of [core.py] assigns as it reads.  When an
    inventory entry of the file is a list of one element, the
    [IndexError] leaves the story with the hit points and achievements
    of the file, an inventory that holds only the entries read before
    the short one (what was equipped before the call is gone), and the
    flags and the path it had. *)
Theorem load_state_is_not_atomic (filename : string) (w : Core.world Fn)
    (d : list (string * json)) (h : Z) (ach : list (string * string))
    (good : list (string * (string * string))) (slot x : string)
    (rest : list (string * json)) :
  Core.files w !! filename = Some (Parsed (JDict d)) ->
  jlookup "hp" d = Some (JInt h) ->
  jlookup "achievements" d = Some (encode_achievements ach) ->
  jlookup "inventory" d
    = Some (JDict (((fun '(slot, (name, description)) =>
                       (slot, JList [JStr name; JStr description])) <$> good)
                   ++ (slot, JList [JStr x]) :: rest)) ->
  Core.load_state filename w
  = (Raise IndexError,
     Core.World
       (Core.set_inventory {| Core._items := rebuilt_items good |}
          (Core.set_achievements {| Core._achievements := rebuilt_achievements ach |}
             (Core.set_health {| Core._hp := h |} (Core.story w))))
       (Core.files w) (Core.trace w)).
Proof.
  intros Hfile Hhp Hach Hinv.
  unfold Core.load_state. unfold Core.bind at 1, Core.open_read. rewrite Hfile.
  unfold Core.bind at 1, Core.lift at 1, Core.state_get. rewrite Hhp.
  cbn [default id result_bind Core.json_int].
  unfold Core.bind at 1, Core.modify at 1. cbn beta iota.
  unfold Core.bind at 1, Core.modify at 1. cbn beta iota.
  unfold Core.bind at 1, Core.lift at 1. rewrite Hach.
  cbn [default id result_bind Core.items encode_achievements].
  unfold Core.bind at 1. rewrite load_achievements_encoded.
  unfold Core.bind at 1, Core.modify at 1. cbn beta iota.
  unfold Core.bind at 1, Core.lift at 1. rewrite Hinv.
  cbn [default id result_bind Core.items].
  unfold Core.bind at 1. rewrite load_inventory_short_entry.
  reflexivity.
Qed.

End MoreLoadFacts.

(** A file whose only inventory entry is short: the sword equipped
    before the call is gone, the path is kept. *)
Lemma load_state_is_not_atomic_witness :
  let w0 := Script.start (Script.forest None) ["start"] in
  let w1 := snd (Core.story_add_item "Right hand" "Sword" "Sharp" Core.LambdaNone w0) in
  let w := Core.World (Core.story w1)
             {[ "save.json" :=
                  Parsed (JDict [("hp", JInt 3); ("achievements", JDict []);
                                 ("inventory", JDict [("Head", JList [JStr "Hat"])])]) ]} [] in
  fst (Core.load_state "save.json" w) = Raise IndexError
  /\ Core.story_get_items (Core.story w) !! "Right hand" = Some ("Sword", "Sharp")
  /\ Core.story_get_items (Core.story (snd (Core.load_state "save.json" w))) = ∅
  /\ Core.story_get_hp (Core.story (snd (Core.load_state "save.json" w))) = 3
  /\ Core.path (Core.story (snd (Core.load_state "save.json" w))) = ["start"].
Proof.
  cbv zeta.
  match goal with |- fst (Core.load_state _ ?w) = _ /\ _ =>
    pose proof (load_state_is_not_atomic "save.json" w
                  [("hp", JInt 3); ("achievements", JDict []);
                   ("inventory", JDict [("Head", JList [JStr "Hat"])])]
                  3 [] [] "Head" "Hat" []) as E
  end.
  rewrite E by reflexivity.
  split; [reflexivity|]. split; [vm_compute; reflexivity|].
  split; [vm_compute; reflexivity|]. split; reflexivity.
Defined.

(** * Building the registry *)

Section RegistryFacts.
Context {Fn : Type} (call : Fn -> Core.Story Fn -> Core.Story Fn).

Lemma od_set_absent {V} (k : string) (v : V) (d : list (string * V)) :
  Core.od_get k d = None -> Core.od_set k v d = d ++ [(k, v)].
Proof.
  induction d as [|[k' v'] d IH]; simpl; [done|].
  destruct (String.eqb_spec k k'); [done|]. intros H. by rewrite IH.
Qed.

(** X17: creating an effect and registering it under a name that is not
    in use gives it a reference no other object has, leaves every other
    object and entry as it was, and keeps the registry well formed:
    distinct names, distinct objects, every reference pointing at an
    object.  The [apply] callback is taken to leave the registry and the
    effect objects alone. *)
Theorem registering_keeps_registry (w : Core.world Fn) (e : Core.Effect Fn) :
  registry_ok (Core.story w) ->
  Core.od_get (Core.eff_name e) (Core.effects (Core.story w)) = None ->
  quiet call (Core.eff_apply e) ->
  let fresh := length (Core.heap (Core.story w)) in
  let r := Core.bind (Core.new_Effect e) (Core.apply_effect call) w in
  fst r = Ok tt
  /\ registry_ok (Core.story (snd r))
  /\ Core.effects (Core.story (snd r))
     = Core.effects (Core.story w) ++ [(Core.eff_name e, fresh)]
  /\ Core.heap (Core.story (snd r)) = Core.heap (Core.story w) ++ [e]
  /\ Core.trace (snd r) = Core.trace w ++ [Core.Applied (Core.eff_apply e)].
Proof.
  intros (Hnames & Hrefs & Hsome) Habs Hq fresh r.
  set (s2 := Core.set_effects
               (Core.od_set (Core.eff_name e) fresh (Core.effects (Core.story w)))
               (Core.set_heap (Core.heap (Core.story w) ++ [e]) (Core.story w))).
  assert (r = (Ok tt,
               Core.World (call (Core.eff_apply e) s2) (Core.files w)
                 (Core.trace w ++ [Core.Applied (Core.eff_apply e)]))) as ->.
  { unfold r, Core.new_Effect. unfold Core.bind at 1, Core.bind at 1, Core.get_story.
    unfold Core.bind at 1, Core.modify. cbn beta iota. unfold Core.ret.
    unfold Core.apply_effect, Core.deref.
    unfold Core.bind at 1, Core.bind at 1, Core.get_story.
    cbn [Core.story Core.heap Core.set_heap].
    fold fresh. rewrite list_lookup_middle by done. reflexivity. }
  cbn [fst snd Core.story Core.trace].
  destruct (Hq s2) as [Heff Hheap].
  assert (Core.effects s2 = Core.effects (Core.story w) ++ [(Core.eff_name e, fresh)]) as Heff2.
  { unfold s2. cbn. by apply od_set_absent. }
  assert (Core.heap s2 = Core.heap (Core.story w) ++ [e]) as Hheap2 by reflexivity.
  rewrite Heff2 in Heff. rewrite Hheap2 in Hheap.
  split; [reflexivity|]. split; [|by repeat split].
  unfold registry_ok. rewrite Heff, Hheap, !fmap_app. simpl. split; [|split].
  - apply NoDup_app. split; [done|]. split; [|apply NoDup_singleton].
    intros k Hk ->%list_elem_of_singleton. by apply (od_get_absent _ _ Habs).
  - apply NoDup_app. split; [done|]. split; [|apply NoDup_singleton].
    intros k Hk ->%list_elem_of_singleton.
    apply list_elem_of_fmap in Hk as (x & Hx & Hin).
    rewrite Forall_forall in Hsome. destruct (Hsome x Hin) as [e' He'].
    apply lookup_lt_Some in He'. unfold fresh in Hx. lia.
  - apply Forall_app. split.
    + eapply Forall_impl; [exact Hsome|]. intros x [e' He']. exists e'.
      by apply lookup_app_l_Some.
    + constructor; [|constructor]. simpl. exists e. by apply list_lookup_middle.
Qed.

End RegistryFacts.

(** A second effect, under another name, next to the poison. *)
Lemma registering_keeps_registry_witness :
  let e := {| Core.eff_name := "shield"; Core.duration := 2;
              Core.eff_apply := Script.SetFlag "shielded" true;
              Core.expire := Some (Script.SetFlag "shielded" false) |} in
  let r := Core.bind (Core.new_Effect e) (Core.apply_effect Script.run) (poisoned 3) in
  fst r = Ok tt
  /\ registry_ok (Core.story (snd r))
  /\ Core.effects (Core.story (snd r)) = [("poison", 0%nat); ("shield", 1%nat)].
Proof.
  cbv zeta.
  match goal with |- fst (Core.bind (Core.new_Effect ?e) _ _) = _ /\ _ =>
    destruct (registering_keeps_registry Script.run (poisoned 3) e)
      as (Hres & Hok & Heff & _)
  end.
  - apply poisoned_registry_ok.
  - reflexivity.
  - apply script_quiet.
  - split; [exact Hres|]. split; [exact Hok|]. rewrite Heff. reflexivity.
Defined.

(** * Load failures in [story_engine.py] *)

Section TuiLoadFacts.
Context {Fn : Type}.


End TuiLoadFacts.


(** A file that holds only the hit points: [core.py] loads it and fills
    in the rest. *)
Lemma core_load_defaults_witness :
  let w := Core.World (Core.story armed)
             {[ "save.json" := Parsed (JDict [("hp", JInt 7)]) ]} [] in
  let r := Core.load_state "save.json" w in
  fst r = Ok tt
  /\ Core.story_get_hp (Core.story (snd r)) = 7
  /\ Core.story_get_items (Core.story (snd r)) = ∅
  /\ Core.story_get_achievements (Core.story (snd r)) = ∅
  /\ Core._flags (Core.story (snd r)) = ∅
  /\ Core.path (Core.story (snd r)) = []
  /\ Core._log (Core.story (snd r)) = [].
Proof.
  cbv zeta.
  rewrite (core_load_defaults "save.json"
             (Core.World (Core.story armed)
                {[ "save.json" := Parsed (JDict [("hp", JInt 7)]) ]} [])
             [("hp", JInt 7)] (Some 7) None None None None);
    [|reflexivity ..].
  repeat split.
Defined.

(** An inventory entry that is a string is indexed by character, not by
    byte: the slot gets the first character as name and the second as
    description. *)
Example load_inventory_string_entry :
  Core.characters "aéb" = ["a"; "é"; "b"]
  /\ Core.json_index 1 (JStr "aéb") = Ok (JStr "é")
  /\ Core.json_index 3 (JStr "aéb") = Raise IndexError.
Proof. repeat split. Qed.
